(** * lyrintha: log clustering, frequency dictionaries and the dictionary codec

    A shallow embedding of the four Python programs of the repository

      - [sort_log_by_edit_distance.py]  (edit distance, batch clustering)
      - [word_frequency_dict.py]        (word frequency dictionary)
      - [create_longest_match_dict_with_stats.py] (substring dictionary)
      - [dict_coder.py]                 (vocabulary and id codec)

    followed by the properties their specification states about them
    and by further properties of the same functions.

    Conventions of the embedding.
      - A Python [str] is a [list ascii]; a character is a code point
        below 256, so that the character classes of Python (whitespace,
        digits, printable characters, case) are the Latin-1 part of the
        Unicode tables Python uses.
      - A Python [int] is a [Z].
      - A [dict] is a [gmap], a [set] is a [gset].
      - A text file is its content, a [str]; reading it line by line is
        [Py.file_lines].
      - An exception that the source lets escape (or answers with
        [sys.exit(1)]) is the result [None].
      - [int] refuses a numeral of more digits than the interpreter
        allows. The ids that [encode] writes are within the limit, and
        the codec of [DictCoder] reads them with [Py.int_of_str];
        [DecodeLimited] is [decode] on any text, for every limit. *)

From Stdlib Require Import ZArith List Ascii String Lia Permutation Sorted.
From stdpp Require Import gmap strings list sorting.

Abbreviation str := (list ascii).

(** A string literal of the source. *)
Definition lit (s : string) : str := list_ascii_of_string s.

(** ** Python built-ins used by the programs *)

Module Py.

Definition ord (c : ascii) : Z := Z.of_N (N_of_ascii c).

Definition between (lo hi : Z) (c : ascii) : bool :=
  ((lo <=? ord c) && (ord c <=? hi))%Z.

(** [str.isspace] on one character: TAB..CR, FS..US, space, NEL, NBSP. *)
Definition isspace (c : ascii) : bool :=
  between 9 13 c || between 28 32 c || between 133 133 c || between 160 160 c.

(** [str.lstrip()], [str.rstrip()], [str.strip()]. *)
Fixpoint lstrip (s : str) : str :=
  match s with
  | c :: s' => if isspace c then lstrip s' else s
  | [] => []
  end.

Definition rstrip (s : str) : str := rev (lstrip (rev s)).

Definition strip (s : str) : str := rstrip (lstrip s).

(** Maximal runs of characters satisfying [p], left to right: this is
    [str.split()] for the non-blank characters and [re.findall] of a
    pattern [[class]+] for the characters of the class. [cur] holds the
    current run, last character first. *)
Fixpoint runs_go (p : ascii → bool) (cur : str) (s : str) : list str :=
  match s with
  | [] => match cur with [] => [] | _ => [rev cur] end
  | c :: s' =>
      if p c then runs_go p (c :: cur) s'
      else match cur with
           | [] => runs_go p [] s'
           | _ => rev cur :: runs_go p [] s'
           end
  end.

Definition runs (p : ascii → bool) (s : str) : list str := runs_go p [] s.

(** [str.split()] without a separator. *)
Definition split (s : str) : list str := runs (λ c, negb (isspace c)) s.

(** [str.split(sep)] with a one-character separator. *)
Fixpoint split_on (sep : ascii) (s : str) : list str :=
  match s with
  | [] => [[]]
  | c :: s' =>
      if decide (c = sep) then [] :: split_on sep s'
      else match split_on sep s' with
           | w :: ws => (c :: w) :: ws
           | [] => [[c]]
           end
  end.

(** [sep.join(ws)]. *)
Fixpoint join (sep : str) (ws : list str) : str :=
  match ws with
  | [] => []
  | [w] => w
  | w :: ws' => w ++ sep ++ join sep ws'
  end.

(** [s.endswith(suffix)]. *)
Definition endswith (s suffix : str) : bool :=
  bool_decide (drop (length s - length suffix) s = suffix).

(** [s[:-n]] for a positive [n]. *)
Definition drop_last (n : nat) (s : str) : str := take (length s - n) s.

(** [s[start:end]] for [0 <= start <= end]. *)
Definition slice (s : str) (start end_ : nat) : str :=
  take (end_ - start) (drop start s).

(** [str.lower()]: the upper-case letters below 256 are A..Z, and
    U+00C0..U+00DE without the multiplication sign U+00D7. *)
Definition lower_char (c : ascii) : ascii :=
  if between 65 90 c || (between 192 222 c && negb (between 215 215 c))
  then ascii_of_N (N_of_ascii c + 32) else c.

Definition lower (s : str) : str := map lower_char s.

(** [str(n)] for an integer. [digits_go] writes the decimal digits of a
    non-negative [n] in front of [acc]; a number has no more decimal digits
    than binary ones, which bounds the recursion. *)
Definition digit_char (d : Z) : ascii := ascii_of_N (Z.to_N (48 + d)).

Fixpoint digits_go (fuel : nat) (n : Z) (acc : str) : str :=
  match fuel with
  | O => acc
  | S fuel' =>
      let acc' := digit_char (n mod 10) :: acc in
      if (n / 10 =? 0)%Z then acc' else digits_go fuel' (n / 10) acc'
  end.

Definition str_of_nonneg (n : Z) : str :=
  digits_go (S (Z.to_nat (Z.log2 n))) n [].

Definition str_of_int (n : Z) : str :=
  if (n <? 0)%Z then "-"%char :: str_of_nonneg (- n) else str_of_nonneg n.

(** [int(s)]: surrounding whitespace, an optional sign, decimal digits
    with single underscores between digits. [None] is [ValueError]. *)
Definition digit_val (c : ascii) : option Z :=
  if between 48 57 c then Some (ord c - 48)%Z else None.

Fixpoint parse_digits (acc : Z) (after_digit : bool) (s : str) : option Z :=
  match s with
  | [] => if after_digit then Some acc else None
  | c :: s' =>
      if decide (c = "_"%char)
      then (if after_digit then parse_digits acc false s' else None)
      else match digit_val c with
           | Some d => parse_digits (10 * acc + d) true s'
           | None => None
           end
  end.

Definition int_of_str (s : str) : option Z :=
  match strip s with
  | c :: r =>
      if decide (c = "+"%char) then parse_digits 0 false r
      else if decide (c = "-"%char) then Z.opp <$> parse_digits 0 false r
      else parse_digits 0 false (c :: r)
  | [] => None
  end.

(** [int] also refuses, with [ValueError], a numeral of more digits than
    the interpreter allows: [sys.get_int_max_str_digits()], which is 4300
    unless configured, [0] for no limit, and never between 1 and 639.
    Every decimal digit of the numeral counts, leading zeros too; the
    sign, the underscores and the surrounding whitespace do not. So
    [int_of_str] is [int] on the numerals within the limit, and
    [int_of_str_limited] is [int]. *)
Definition digit_count (s : str) : nat :=
  length (filter (λ c, between 48 57 c = true) s).

Definition int_of_str_limited (max_str_digits : nat) (s : str) : option Z :=
  if decide (0 < max_str_digits < digit_count s) then None
  else int_of_str s.

Definition default_max_str_digits : nat := 4300.

(** Reading a text file: universal newlines turn CR LF and CR into LF. *)
Definition LF : ascii := ascii_of_N 10.
Definition CR : ascii := ascii_of_N 13.

Fixpoint universal_newlines (s : str) : str :=
  match s with
  | [] => []
  | c :: s' =>
      if decide (c = CR) then
        match s' with
        | c' :: _ => if decide (c' = LF) then universal_newlines s'
                     else LF :: universal_newlines s'
        | [] => [LF]
        end
      else c :: universal_newlines s'
  end.

(** The lines of a content, each with its newline; [cur] holds the
    current line, last character first. *)
Fixpoint lines_go (cur : str) (s : str) : list str :=
  match s with
  | [] => match cur with [] => [] | _ => [rev cur] end
  | c :: s' =>
      if decide (c = LF) then rev (c :: cur) :: lines_go [] s'
      else lines_go (c :: cur) s'
  end.

(** [for line in f] on a file opened in text mode. *)
Definition file_lines (content : str) : list str :=
  lines_go [] (universal_newlines content).

(** [for line in f] on a file opened in binary mode: LF only. *)
Definition file_lines_binary (content : str) : list str :=
  lines_go [] content.

(** [sorted(l, key=key)] and [l.sort(key=key)]: a stable sort that compares
    keys with [<]. An element is inserted in front of the first element
    whose key is not smaller than its own. *)
Section Sorted.
Context {A K : Type} (key : A → K) (ltb : K → K → bool).

Fixpoint insert_stable (x : A) (l : list A) : list A :=
  match l with
  | [] => [x]
  | y :: l' =>
      if ltb (key y) (key x) then y :: insert_stable x l'
      else x :: y :: l'
  end.

Definition sorted (l : list A) : list A := foldr insert_stable [] l.
End Sorted.

(** [<] on strings: lexicographic on code points. *)
Fixpoint str_ltb (a b : str) : bool :=
  match a, b with
  | _, [] => false
  | [], _ :: _ => true
  | x :: a', y :: b' =>
      if (ord x <? ord y)%Z then true
      else if (ord y <? ord x)%Z then false
      else str_ltb a' b'
  end.

End Py.

(** ** EditDistance: [levenshtein_distance] of sort_log_by_edit_distance.py *)

Module EditDistance.
Section Distance.
Context {A : Type} `{EqDecision A}.

(** [range(n)] as the list it is indexed as. *)
Definition range (n : nat) : list Z := Z.of_nat <$> seq 0 n.

(** The loop [for j, c2 in enumerate(s2)]; a row index out of range is
    [IndexError]. *)
Fixpoint inner_loop (c1 : A) (previous_row : list Z) (j : nat)
    (s2 : list A) (current_row : list Z) : option (list Z) :=
  match s2 with
  | [] => Some current_row
  | c2 :: s2' =>
      above ← previous_row !! (j + 1)%nat;
      left ← current_row !! j;
      diag ← previous_row !! j;
      let insertions := (above + 1)%Z in
      let deletions := (left + 1)%Z in
      let substitutions := (diag + (if decide (c1 = c2) then 0 else 1))%Z in
      inner_loop c1 previous_row (S j) s2'
        (current_row ++ [Z.min insertions (Z.min deletions substitutions)])
  end.

(** The loop [for i, c1 in enumerate(s1)]. *)
Fixpoint outer_loop (i : nat) (s1 s2 : list A) (previous_row : list Z)
    : option (list Z) :=
  match s1 with
  | [] => Some previous_row
  | c1 :: s1' =>
      current_row ← inner_loop c1 previous_row 0 s2 [(Z.of_nat i + 1)%Z];
      outer_loop (S i) s1' s2 current_row
  end.

(** The body of the function once [len(s1) >= len(s2)]. *)
Definition distance_rows (s1 s2 : list A) : option Z :=
  if decide (length s2 = 0) then Some (Z.of_nat (length s1))
  else previous_row ← outer_loop 0 s1 s2 (range (length s2 + 1));
       last previous_row.

(** The recursive call swaps the arguments, once. *)
Definition levenshtein_distance (s1 s2 : list A) : option Z :=
  if decide (length s1 < length s2) then distance_rows s2 s1
  else distance_rows s1 s2.
End Distance.
End EditDistance.

(** ** LineClusterer: the rest of sort_log_by_edit_distance.py *)

Module LineClusterer.
Import EditDistance.

(** Membership in [string.printable]: digits, letters, punctuation and
    the six whitespace characters TAB, LF, VT, FF, CR, space. *)
Definition printable (c : ascii) : bool :=
  Py.between 32 126 c || Py.between 9 13 c.

Definition clean_line (line : str) : str :=
  (λ c, if printable c then c else "?"%char) <$> line.

(** The destination file is the list of the lines written to it (each
    [f.write(line + '\n')] adds one); mode ['w'] starts from nothing, mode
    ['a'] from what the file holds. *)
Definition process_batch (batch : list str) (batch_num : Z)
    (output_file : list str) : option (list str) :=
  match batch with
  | [] => Some output_file
  | base_line :: _ =>
      batch_with_distance ←
        mapM (λ line, distance ← levenshtein_distance base_line line;
                      Some (distance, line)) batch;
      let sorted_batch := snd <$> Py.sorted fst Z.ltb batch_with_distance in
      Some (if (batch_num >? 0)%Z then output_file ++ sorted_batch
            else sorted_batch)
  end.

Section Batches.
(** [bytes.decode('utf-8', errors='replace')]: the decoded line only
    reaches the program through [clean_line]. *)
Variable decode : str → str.

(** The loop over the lines of the input; the state is the current
    batch, the batch number and the destination. *)
Fixpoint read_loop (batch_size : Z) (byte_lines : list str)
    (batch : list str) (batch_num : Z) (output_file : list str)
    : option (list str * Z * list str) :=
  match byte_lines with
  | [] => Some (batch, batch_num, output_file)
  | byte_line :: rest =>
      let line := decode byte_line in
      let cleaned_line := Py.strip (clean_line line) in
      let batch := match cleaned_line with
                   | [] => batch
                   | _ => batch ++ [cleaned_line]
                   end in
      if (Z.of_nat (length batch) >=? batch_size)%Z then
        output_file' ← process_batch batch batch_num output_file;
        read_loop batch_size rest [] (batch_num + 1)%Z output_file'
      else read_loop batch_size rest batch batch_num output_file
  end.

Definition read_and_process_in_batches (input_file : str)
    (output_file : list str) (batch_size : Z) : option (list str) :=
  '(batch, batch_num, output_file') ←
    read_loop batch_size (Py.file_lines_binary input_file) [] 0 output_file;
  match batch with
  | [] => Some output_file'
  | _ => process_batch batch batch_num output_file'
  end.
End Batches.
End LineClusterer.

(** ** FrequencyDictionaryBuilder, word variant: word_frequency_dict.py *)

Module WordFrequency.

(** [str.isalnum] on one character, which is what [\w] adds to the
    underscore: digits and letters, and below 256 also the ordinal
    indicators, the micro sign, the superscript digits, the vulgar
    fractions and the accented letters. *)
Definition isalnum (c : ascii) : bool :=
  Py.between 48 57 c || Py.between 65 90 c || Py.between 97 122 c
  || Py.between 170 170 c || Py.between 178 179 c || Py.between 181 181 c
  || Py.between 185 186 c || Py.between 188 190 c
  || Py.between 192 214 c || Py.between 216 246 c || Py.between 248 255 c.

(** The character class of the pattern. *)
Definition word_char (c : ascii) : bool :=
  isalnum c || bool_decide (c ∈ lit "_-:/='").

Definition extract_words (line : str) : list str := Py.runs word_char line.

(** [word_counts[normalized_word] += 1] on a [defaultdict(int)]. *)
Definition count_word (word_counts : gmap str Z) (word : str) : gmap str Z :=
  let normalized_word := Py.lower word in
  <[normalized_word := (default 0 (word_counts !! normalized_word) + 1)%Z]>
    word_counts.

(** The loop over the lines, left by [break] once [max_lines] lines were
    counted. *)
Fixpoint count_lines (max_lines : Z) (lines : list str) (line_count : Z)
    (word_counts : gmap str Z) : gmap str Z :=
  match lines with
  | [] => word_counts
  | line :: rest =>
      if (line_count >=? max_lines)%Z then word_counts
      else
        let cleaned_line := Py.strip line in
        match cleaned_line with
        | [] => count_lines max_lines rest (line_count + 1)%Z word_counts
        | _ =>
            let words := extract_words cleaned_line in
            count_lines max_lines rest (line_count + 1)%Z
              (foldl count_word word_counts words)
        end
  end.

Definition build_word_frequency_dict (file : str) (max_lines : Z)
    : gmap str Z :=
  count_lines max_lines (Py.file_lines file) 0 ∅.

(** The sort key [(-x[1], -len(x[0]), x[0])] and [<] on such tuples. *)
Definition sort_key (x : str * Z) : Z * Z * str :=
  ((- x.2)%Z, (- Z.of_nat (length x.1))%Z, x.1).

Definition key_ltb (k1 k2 : Z * Z * str) : bool :=
  let '(f1, l1, w1) := k1 in
  let '(f2, l2, w2) := k2 in
  if bool_decide (f1 ≠ f2) then (f1 <? f2)%Z
  else if bool_decide (l1 ≠ l2) then (l1 <? l2)%Z
  else Py.str_ltb w1 w2.

Definition sorted_words (frequency_dict : gmap str Z) : list (str * Z) :=
  Py.sorted sort_key key_ltb (map_to_list frequency_dict).

(** One row of the table, before it is laid out in columns. The
    percentage column is a floating-point number and is not part of the
    embedding. *)
Record entry := {
  rank : Z;
  shown_word : str;
  word_length : Z;
  frequency : Z
}.

Definition shown (word : str) : str :=
  if decide (30 < length word) then take 27 word ++ lit "..." else word.

(** [for rank, (word, count) in enumerate(sorted_words, 1)]. *)
Fixpoint rows_from (rank : Z) (sorted_words : list (str * Z)) : list entry :=
  match sorted_words with
  | [] => []
  | (word, count) :: rest =>
      {| rank := rank; shown_word := shown word;
         word_length := Z.of_nat (length word); frequency := count |}
      :: rows_from (rank + 1)%Z rest
  end.

Definition save_word_frequency_dict (frequency_dict : gmap str Z)
    : list entry :=
  rows_from 1 (sorted_words frequency_dict).
End WordFrequency.

(** ** word_frequency_dict.py: the dictionary file *)

Module WordFrequencyFile.
Import Py WordFrequency.

(** [f"{s:<width}"]: [s] left-justified in a field of [width] characters. *)
Definition ljust (width : nat) (s : str) : str :=
  s ++ replicate (width - length s) " "%char.

Section Text.
(** [f"{percentage:.2f}"] for a count and the total: the percentage is a
    floating-point number, [(count / total) * 100], or [0] without a
    positive total; its text is not part of the embedding. *)
Variable percentage_text : Z → Z → str.

(** The row written for [word] and [count] at [rank]. *)
Definition row_text (total rank : Z) (word : str) (count : Z) : str :=
  ljust 6 (str_of_int rank) ++ lit " | "
  ++ ljust 30 (shown word) ++ lit " | "
  ++ ljust 6 (str_of_int (Z.of_nat (length word))) ++ lit " | "
  ++ ljust 9 (str_of_int count) ++ lit " | "
  ++ percentage_text count total ++ lit "%" ++ [LF].

(** [for rank, (word, count) in enumerate(sorted_words, 1)]. *)
Fixpoint rows_text (total rank : Z) (sorted_words : list (str * Z)) : str :=
  match sorted_words with
  | [] => []
  | (word, count) :: rest =>
      row_text total rank word count ++ rows_text total (rank + 1)%Z rest
  end.

(** The content of the output file of [save_word_frequency_dict]. *)
Definition written_file (frequency_dict : gmap str Z) : str :=
  let sorted_words := sorted_words frequency_dict in
  let total := foldr Z.add 0%Z (snd <$> sorted_words) in
  (ljust 6 (lit "Rank") ++ lit " | " ++ ljust 30 (lit "Word")
   ++ lit " | Length | Frequency | Percentage" ++ [LF])
  ++ (replicate 100 "-"%char ++ [LF])
  ++ rows_text total 1 sorted_words.
End Text.
End WordFrequencyFile.

(** ** FrequencyDictionaryBuilder, substring variant:
       create_longest_match_dict_with_stats.py *)

Module SubstringDict.

(** [range(a, b)] over natural numbers. *)
Definition range (a b : nat) : list nat := seq a (b - a).

Definition extract_substrings (line : str) (min_length max_length : nat)
    : gset str :=
  let line_length := length line in
  foldl (λ substrings start,
           let max_end := (start + max_length) `min` line_length in
           foldl (λ substrings end_,
                    let substr := Py.slice line start end_ in
                    {[ substr ]} ∪ substrings)
                 substrings (range (start + min_length) (max_end + 1)))
        (∅ : gset str) (range 0 line_length).

(** The value [{'count': c, 'length': l}] of [substring_stats]. *)
Record stats := { count : Z; length_ : Z }.

Global Instance stats_inhabited : Inhabited stats :=
  populate {| count := 0; length_ := 0 |}.

Record tables := {
  substring_stats : gmap str stats;
  longest_substrings : gmap str str
}.

(** The grouping key [substr[:2] if len(substr) >= 2 else substr]. *)
Definition group_key (substr : str) : str :=
  if decide (2 ≤ length substr) then take 2 substr else substr.

(** The body of [for substr in substrings]. *)
Definition update (t : tables) (substr : str) : tables :=
  let st := default inhabitant (substring_stats t !! substr) in
  let st := if (Z.of_nat (length substr) >? length_ st)%Z
            then {| count := count st; length_ := Z.of_nat (length substr) |}
            else st in
  let st := {| count := (count st + 1)%Z; length_ := length_ st |} in
  let key := group_key substr in
  {| substring_stats := <[substr := st]> (substring_stats t);
     longest_substrings :=
       match longest_substrings t !! key with
       | None => <[key := substr]> (longest_substrings t)
       | Some held =>
           if decide (length held < length substr)
           then <[key := substr]> (longest_substrings t)
           else longest_substrings t
       end |}.

(** The value of [final_dict]. *)
Record final := { substring : str; length_of : Z; frequency : Z }.

Section Scan.
(** The order in which [for substr in substrings] visits a set. *)
Variable iter : gset str → list str.

Fixpoint scan_lines (max_lines : Z) (lines : list str) (line_count : Z)
    (t : tables) : tables :=
  match lines with
  | [] => t
  | line :: rest =>
      if (line_count >=? max_lines)%Z then t
      else
        let cleaned_line := Py.strip line in
        match cleaned_line with
        | [] => scan_lines max_lines rest (line_count + 1)%Z t
        | _ =>
            let substrings := extract_substrings cleaned_line 3 50 in
            scan_lines max_lines rest (line_count + 1)%Z
              (foldl update t (iter substrings))
        end
  end.

Definition build_enhanced_dict (file : str) (max_lines : Z)
    : gmap str final :=
  let t := scan_lines max_lines (Py.file_lines file) 0
             {| substring_stats := ∅; longest_substrings := ∅ |} in
  (λ longest_sub,
     let st := default inhabitant (substring_stats t !! longest_sub) in
     {| substring := longest_sub; length_of := length_ st;
        frequency := count st |}) <$> longest_substrings t.
End Scan.
End SubstringDict.

(** ** create_longest_match_dict_with_stats.py: the dictionary file *)

Module EnhancedDictFile.
Import Py SubstringDict.






End EnhancedDictFile.

(** ** Vocabulary and DictionaryCodec: dict_coder.py *)

Module DictCoder.

Record coder := {
  word_to_id : gmap str Z;
  id_to_word : gmap Z str;
  next_id : Z
}.

(** [DictionaryCoder()]. *)
Definition init : coder :=
  {| word_to_id := ∅; id_to_word := ∅; next_id := 0 |}.

Definition unk : str := lit "unk".

(** The three assignments that give [word] the next id. *)
Definition assign (c : coder) (word : str) : coder :=
  {| word_to_id := <[word := next_id c]> (word_to_id c);
     id_to_word := <[next_id c := word]> (id_to_word c);
     next_id := (next_id c + 1)%Z |}.

(** The word of a row of the dictionary file; [None] for a row that is
    skipped. *)
Definition row_word (line : str) : option str :=
  let parts := Py.split_on "|"%char (Py.strip line) in
  if decide (length parts < 2) then None
  else
    word ← Py.strip <$> parts !! 1%nat;
    Some (if Py.endswith word (lit "...") then Py.drop_last 3 word else word).

Definition load_row (c : coder) (line : str) : coder :=
  match row_word line with
  | None => c
  | Some word =>
      if decide (is_Some (word_to_id c !! word)) then c else assign c word
  end.

(** [next(f)] twice, then the loop; a file of fewer than two lines ends
    in [StopIteration] and the program exits. *)
Definition load_dictionary (c : coder) (dict_file : str) : option coder :=
  match Py.file_lines dict_file with
  | _ :: _ :: rows => Some (foldl load_row c rows)
  | _ => None
  end.

(** The pickled pair of dictionaries; [pickle.load] gives back what
    [pickle.dump] was given. *)
Definition mappings : Type := gmap str Z * gmap Z str.

Definition save_mappings (c : coder) : mappings :=
  (word_to_id c, id_to_word c).

Definition load_mappings (c : coder) (m : mappings) : coder :=
  {| word_to_id := m.1; id_to_word := m.2;
     next_id := Z.of_nat (size m.1) |}.

(** The body of [for word in words]: the coder after it and the entry
    appended to [encoded_line]. A missing key is [KeyError]. *)
Definition encode_word (c : coder) (word : str) : option (coder * str) :=
  let normalized_word := Py.lower word in
  match word_to_id c !! normalized_word with
  | Some id => Some (c, Py.str_of_int id)
  | None =>
      let c' := if decide (is_Some (word_to_id c !! unk)) then c
                else assign c unk in
      id ← word_to_id c' !! unk;
      Some (c', Py.str_of_int id)
  end.

Fixpoint encode_words (c : coder) (words : list str) (encoded_line : list str)
    : option (coder * list str) :=
  match words with
  | [] => Some (c, encoded_line)
  | word :: rest =>
      '(c', id_str) ← encode_word c word;
      encode_words c' rest (encoded_line ++ [id_str])
  end.

(** The loop over the lines; [out_f] is the text written so far. *)
Fixpoint encode_lines (c : coder) (lines : list str) (out_f : str)
    : option (coder * str) :=
  match lines with
  | [] => Some (c, out_f)
  | line :: rest =>
      let words := Py.split (Py.strip line) in
      '(c', encoded_line) ← encode_words c words [];
      encode_lines c' rest
        (out_f ++ Py.join (lit " ") encoded_line ++ [Py.LF])
  end.

Definition encode (c : coder) (input_file : str) : option (coder * str) :=
  encode_lines c (Py.file_lines input_file) [].

(** The body of [for id_str in ids], for an [id_str] within the
    interpreter's limit on the digits of a numeral, as every id that
    [encode] writes is; [DecodeLimited] has the limit. *)
Definition decode_id (c : coder) (id_str : str) : str :=
  match Py.int_of_str id_str with
  | Some word_id => default unk (id_to_word c !! word_id)
  | None => unk
  end.

(** The loop over the lines, keeping each [decoded_line]. *)
Fixpoint decode_lines (c : coder) (lines : list str)
    (decoded : list (list str)) : list (list str) :=
  match lines with
  | [] => decoded
  | line :: rest =>
      let ids := Py.split (Py.strip line) in
      let decoded_line :=
        foldl (λ decoded_line id_str, decoded_line ++ [decode_id c id_str])
              [] ids in
      decode_lines c rest (decoded ++ [decoded_line])
  end.

(** The [decoded_line] of every line of the input. *)
Definition decoded_lines (c : coder) (input_file : str) : list (list str) :=
  decode_lines c (Py.file_lines input_file) [].

(** The text written: one [' '.join(decoded_line) + '\n'] per line. *)
Definition decode (c : coder) (input_file : str) : str :=
  concat ((λ decoded_line, Py.join (lit " ") decoded_line ++ [Py.LF])
            <$> decoded_lines c input_file).
End DictCoder.

(** ** dict_coder.py: [decode] under the interpreter's limit on numerals *)

Module DecodeLimited.
Import DictCoder.

Section Limit.
(** [sys.get_int_max_str_digits()]. *)
Variable max_str_digits : nat.

(** The body of [for id_str in ids]: [int(id_str)] raises [ValueError]
    for a string that is no numeral and for a numeral beyond the limit. *)
Definition decode_id (c : coder) (id_str : str) : str :=
  match Py.int_of_str_limited max_str_digits id_str with
  | Some word_id => default unk (id_to_word c !! word_id)
  | None => unk
  end.

(** The loop over the lines, keeping each [decoded_line]. *)
Fixpoint decode_lines (c : coder) (lines : list str)
    (decoded : list (list str)) : list (list str) :=
  match lines with
  | [] => decoded
  | line :: rest =>
      let ids := Py.split (Py.strip line) in
      let decoded_line :=
        foldl (λ decoded_line id_str, decoded_line ++ [decode_id c id_str])
              [] ids in
      decode_lines c rest (decoded ++ [decoded_line])
  end.

(** The [decoded_line] of every line of the input. *)
Definition decoded_lines (c : coder) (input_file : str) : list (list str) :=
  decode_lines c (Py.file_lines input_file) [].

(** The text written: one [' '.join(decoded_line) + '\n'] per line. *)
Definition decode (c : coder) (input_file : str) : str :=
  concat ((λ decoded_line, Py.join (lit " ") decoded_line ++ [Py.LF])
            <$> decoded_lines c input_file).
End Limit.
End DecodeLimited.

(** * Properties *)
(** ** Edit distance as a minimum over edit sequences *)

Module EditScripts.
Section Scripts.
Context {A : Type} `{EqDecision A}.

(** One single-character insertion, deletion or substitution. *)
Inductive edit1 : list A → list A → Prop :=
| edit_insert u c v : edit1 (u ++ v) (u ++ c :: v)
| edit_delete u c v : edit1 (u ++ c :: v) (u ++ v)
| edit_substitute u c d v : edit1 (u ++ c :: v) (u ++ d :: v).

(** [edits n a b]: [n] single-character edits transform [a] into [b]. *)
Inductive edits : nat → list A → list A → Prop :=
| edits_done a : edits 0 a a
| edits_step n a b c : edit1 a b → edits n b c → edits (S n) a c.

(** The textbook recursion on the first characters. *)
Fixpoint lev (a b : list A) : nat :=
  match a with
  | [] => length b
  | x :: a' =>
      (fix lev_a (b : list A) : nat :=
         match b with
         | [] => S (length a')
         | y :: b' =>
             (S (lev a' b) `min` S (lev_a b'))
             `min` (lev a' b' + (if decide (x = y) then 0 else 1))
         end) b
  end.

Lemma lev_nil_r a : lev a [] = length a.
Proof. by destruct a. Qed.

Lemma lev_cons x a y b :
  lev (x :: a) (y :: b) =
    (S (lev a (y :: b)) `min` S (lev (x :: a) b))
    `min` (lev a b + (if decide (x = y) then 0 else 1)).
Proof. reflexivity. Qed.

Lemma lev_cons_r a y b : lev a (y :: b) ≤ S (lev a b).
Proof.
  destruct a as [|x a]; [simpl; lia|]. rewrite lev_cons. lia.
Qed.

Lemma lev_cons_l x a b : lev (x :: a) b ≤ S (lev a b).
Proof.
  destruct b as [|y b]; [rewrite !lev_nil_r; simpl; lia|].
  rewrite lev_cons. lia.
Qed.

Lemma lev_refl a : lev a a = 0.
Proof.
  induction a as [|x a IH]; [done|].
  rewrite lev_cons, IH. rewrite decide_True by done. lia.
Qed.

Lemma lev_sym a b : lev a b = lev b a.
Proof.
  revert b. induction a as [|x a IHa]; intros b.
  { by rewrite lev_nil_r. }
  induction b as [|y b IHb]; [by rewrite lev_nil_r|].
  rewrite !lev_cons, IHb, IHa, (IHa b).
  destruct (decide (x = y)), (decide (y = x)); try congruence; lia.
Qed.

(** [lev] moves by at most one under one edit of its first argument. *)
Definition close (a a' : list A) : Prop := ∀ b, lev a b ≤ S (lev a' b).

Lemma close_cons x a a' : close a a' → close (x :: a) (x :: a').
Proof.
  intros Hc b. induction b as [|y b IHb].
  - rewrite !lev_nil_r. specialize (Hc []). rewrite !lev_nil_r in Hc.
    simpl. lia.
  - rewrite !lev_cons.
    pose proof (Hc (y :: b)). pose proof (Hc b). lia.
Qed.

Lemma close_insert c v : close v (c :: v).
Proof.
  intros b. induction b as [|y b IHb].
  - rewrite !lev_nil_r. simpl. lia.
  - rewrite lev_cons. pose proof (lev_cons_r v y b).
    destruct (decide (c = y)); lia.
Qed.

Lemma close_delete c v : close (c :: v) v.
Proof. intros b. apply lev_cons_l. Qed.

Lemma close_substitute c d v : close (c :: v) (d :: v).
Proof.
  intros b. induction b as [|y b IHb].
  - rewrite !lev_nil_r. simpl. lia.
  - rewrite !lev_cons.
    destruct (decide (c = y)), (decide (d = y)); lia.
Qed.

Lemma close_app u a a' : close a a' → close (u ++ a) (u ++ a').
Proof. intros Hc. induction u; [done|]. by apply close_cons. Qed.

Lemma edit1_close a a' : edit1 a a' → close a a'.
Proof.
  intros [u c v|u c v|u c d v]; apply close_app;
    auto using close_insert, close_delete, close_substitute.
Qed.

(** No edit sequence is shorter than [lev]. *)
Lemma lev_least n a b : edits n a b → lev a b ≤ n.
Proof.
  induction 1 as [a|n a a' b H1 _ IH].
  - by rewrite lev_refl.
  - pose proof (edit1_close _ _ H1 b). lia.
Qed.

Lemma edit1_cons x a b : edit1 a b → edit1 (x :: a) (x :: b).
Proof.
  intros [u c v|u c v|u c d v].
  - apply (edit_insert (x :: u)).
  - apply (edit_delete (x :: u)).
  - apply (edit_substitute (x :: u)).
Qed.

Lemma edits_cons x n a b : edits n a b → edits n (x :: a) (x :: b).
Proof.
  induction 1; [constructor|]. econstructor; [by apply edit1_cons|done].
Qed.

Lemma edits_insert_all b : edits (length b) [] b.
Proof.
  induction b as [|y b IH]; [constructor|]. simpl.
  apply edits_step with [y]; [apply (edit_insert [] y [])|].
  by apply edits_cons.
Qed.

Lemma edits_delete_all a : edits (length a) a [].
Proof.
  induction a as [|x a IH]; [constructor|]. simpl.
  apply edits_step with a; [apply (edit_delete [] x a)|done].
Qed.

(** [lev a b] edits suffice. *)
Lemma lev_reached a b : edits (lev a b) a b.
Proof.
  revert b. induction a as [|x a IHa]; intros b.
  { apply edits_insert_all. }
  induction b as [|y b IHb].
  { rewrite lev_nil_r. apply edits_delete_all. }
  rewrite lev_cons.
  destruct (Nat.min_spec (S (lev a (y :: b)) `min` S (lev (x :: a) b))
              (lev a b + (if decide (x = y) then 0 else 1)))
    as [[_ ->]|[_ ->]].
  - destruct (Nat.min_spec (S (lev a (y :: b))) (S (lev (x :: a) b)))
      as [[_ ->]|[_ ->]].
    + apply edits_step with a; [apply (edit_delete [] x a)|apply IHa].
    + apply edits_step with (y :: x :: a).
      * apply (edit_insert [] y (x :: a)).
      * by apply edits_cons.
  - destruct (decide (x = y)) as [->|Hne].
    + rewrite Nat.add_0_r. apply edits_cons, IHa.
    + rewrite Nat.add_1_r.
      apply edits_step with (y :: a); [apply (edit_substitute [] x y a)|].
      apply edits_cons, IHa.
Qed.

Lemma edit1_rev a b : edit1 a b → edit1 (rev a) (rev b).
Proof.
  intros [u c v|u c v|u c d v]; rewrite !rev_app_distr; simpl;
    rewrite <- ?app_assoc; simpl; constructor.
Qed.

Lemma edits_rev n a b : edits n a b → edits n (rev a) (rev b).
Proof.
  induction 1; [constructor|]. econstructor; [by apply edit1_rev|done].
Qed.

Lemma lev_rev a b : lev (rev a) (rev b) = lev a b.
Proof.
  apply Nat.le_antisymm.
  - apply lev_least, edits_rev, lev_reached.
  - rewrite <- (rev_involutive a), <- (rev_involutive b) at 1.
    apply lev_least, edits_rev, lev_reached.
Qed.
End Scripts.
End EditScripts.

(** ** The rows of [levenshtein_distance] hold edit distances *)

Module EditDistanceProofs.
Import EditDistance EditScripts.
Section Rows.
Context {A : Type} `{EqDecision A}.
Implicit Types (a b x : list A).

(** The row of the table for a consumed part [x] of the first string,
    held last character first: entry [j] is the distance between [x] and
    the first [j] characters of [b], both read backwards. *)
Definition entry (b x : list A) (j : nat) : Z :=
  Z.of_nat (lev x (rev (take j b))).

Definition row (b x : list A) (upto : nat) : list Z :=
  entry b x <$> seq 0 (S upto).

Lemma row_lookup b x upto j :
  j ≤ upto → row b x upto !! j = Some (entry b x j).
Proof.
  intros Hj. unfold row. rewrite list_lookup_fmap.
  rewrite lookup_seq_lt by lia. done.
Qed.

Lemma row_snoc b x upto :
  row b x (S upto) = row b x upto ++ [entry b x (S upto)].
Proof.
  unfold row. rewrite (seq_S (S upto)), fmap_app. done.
Qed.

Lemma range_row b : range (length b + 1) = row b [] (length b).
Proof.
  unfold range, row. rewrite Nat.add_1_r.
  apply list_eq. intros j. rewrite !list_lookup_fmap.
  destruct (decide (j < S (length b))) as [Hj|Hj].
  - rewrite lookup_seq_lt by done. simpl. unfold entry. simpl.
    rewrite length_rev, length_take. do 2 f_equal. lia.
  - rewrite lookup_seq_ge by lia. done.
Qed.

Lemma entry_step b x c1 c2 j :
  b !! j = Some c2 →
  entry b (c1 :: x) (S j) =
    Z.min (entry b x (S j) + 1)
      (Z.min (entry b (c1 :: x) j + 1)
             (entry b x j + (if decide (c1 = c2) then 0 else 1))).
Proof.
  intros Hj. unfold entry.
  rewrite (take_S_r _ _ _ Hj), rev_app_distr. cbn [rev app].
  rewrite lev_cons. destruct (decide (c1 = c2)); lia.
Qed.

Lemma inner_loop_row b x c1 k : ∀ j,
  j + k = length b →
  inner_loop c1 (row b x (length b)) j (drop j b) (row b (c1 :: x) j)
  = Some (row b (c1 :: x) (length b)).
Proof.
  induction k as [|k IH]; intros j Hj.
  - rewrite drop_ge by lia. simpl. do 2 f_equal. lia.
  - destruct (lookup_lt_is_Some_2 b j) as [c2 Hc2]; [lia|].
    rewrite (drop_S _ _ _ Hc2). cbn [inner_loop].
    rewrite Nat.add_1_r, !row_lookup by lia. cbn [mbind option_bind].
    rewrite <- (entry_step _ _ _ _ _ Hc2), <- row_snoc.
    apply IH. lia.
Qed.

Lemma outer_loop_row b s1 : ∀ i x,
  i = length x →
  outer_loop i s1 b (row b x (length b))
  = Some (row b (rev s1 ++ x) (length b)).
Proof.
  induction s1 as [|c1 s1 IH]; intros i x Hi; [done|].
  simpl.
  assert (Hrow : [(Z.of_nat i + 1)%Z] = row b (c1 :: x) 0).
  { unfold row, entry. simpl. f_equal. lia. }
  rewrite Hrow.
  pose proof (inner_loop_row b x c1 (length b) 0 eq_refl) as Hin.
  rewrite drop_0 in Hin. rewrite Hin. simpl.
  rewrite <- app_assoc. simpl. apply IH. simpl. lia.
Qed.

Lemma distance_rows_lev (s1 s2 : list A) :
  distance_rows s1 s2 = Some (Z.of_nat (lev s1 s2)).
Proof.
  unfold distance_rows. destruct (decide (length s2 = 0)) as [Hn|Hn].
  - apply nil_length_inv in Hn as ->. by rewrite lev_nil_r.
  - rewrite range_row, (outer_loop_row s2 s1 0 []) by done. simpl.
    rewrite app_nil_r. unfold row. rewrite seq_S, fmap_app. simpl.
    rewrite last_snoc. unfold entry.
    rewrite take_ge by lia. by rewrite lev_rev.
Qed.

Lemma levenshtein_distance_lev (s1 s2 : list A) :
  levenshtein_distance s1 s2 = Some (Z.of_nat (lev s1 s2)).
Proof.
  unfold levenshtein_distance. case_decide.
  - by rewrite distance_rows_lev, lev_sym.
  - apply distance_rows_lev.
Qed.
End Rows.

(** C8. For all character sequences [a], [b] and [s], the distance is a
    non-negative integer, the least number of single-character
    insertions, deletions and substitutions that transform [a] into [b];
    it is symmetric, zero between a sequence and itself, and the length
    of [s] between the empty sequence and [s]. *)
Theorem C8_edit_distance (a b s : str) :
  ∃ n : nat,
    levenshtein_distance a b = Some (Z.of_nat n)
    ∧ edits n a b
    ∧ (∀ m, edits m a b → n ≤ m)
    ∧ levenshtein_distance a b = levenshtein_distance b a
    ∧ levenshtein_distance a a = Some 0%Z
    ∧ levenshtein_distance [] s = Some (Z.of_nat (length s)).
Proof.
  exists (lev a b). rewrite !levenshtein_distance_lev.
  split_and!; [done|apply lev_reached| | | |done].
  - intros m. apply lev_least.
  - by rewrite lev_sym.
  - by rewrite lev_refl.
Qed.
End EditDistanceProofs.

(** ** The stable sort *)

Module SortedFacts.
Import Py.
Section Facts.
Context {A K : Type} (key : A → K) (ltb : K → K → bool).

(** [x] may stand in front of [y]. *)
Definition not_after (x y : A) : Prop := ltb (key y) (key x) = false.

(** What the proofs need of [<] on keys. *)
Hypothesis ltb_asym : ∀ k1 k2, ltb k1 k2 = true → ltb k2 k1 = false.
Hypothesis ltb_negtrans :
  ∀ k1 k2 k3, ltb k1 k2 = false → ltb k2 k3 = false → ltb k1 k3 = false.

Lemma ltb_irrefl k : ltb k k = false.
Proof.
  destruct (ltb k k) eqn:Hk; [|done]. by rewrite (ltb_asym _ _ Hk) in Hk.
Qed.

Lemma insert_stable_perm x l : insert_stable key ltb x l ≡ₚ x :: l.
Proof.
  induction l as [|y l IH]; [done|]. simpl.
  destruct (ltb (key y) (key x)); [|done].
  rewrite IH. apply Permutation_swap.
Qed.

Lemma sorted_perm l : sorted key ltb l ≡ₚ l.
Proof.
  induction l as [|x l IH]; [done|]. simpl.
  by rewrite insert_stable_perm, IH.
Qed.

Lemma insert_stable_sorted x l :
  StronglySorted not_after l →
  StronglySorted not_after (insert_stable key ltb x l).
Proof.
  induction 1 as [|y l Hl IH Hy]; simpl.
  { repeat constructor. }
  destruct (ltb (key y) (key x)) eqn:Hyx.
  - constructor; [done|].
    rewrite insert_stable_perm. constructor; [|done].
    by apply ltb_asym.
  - constructor; [by constructor|].
    constructor; [done|].
    eapply Forall_impl; [exact Hy|]. intros z Hz.
    unfold not_after in *. by eapply ltb_negtrans.
Qed.

Lemma sorted_sorted l : StronglySorted not_after (sorted key ltb l).
Proof.
  induction l as [|x l IH]; simpl; [constructor|].
  by apply insert_stable_sorted.
Qed.

(** Stability: the elements of one key keep their order. *)
Lemma insert_stable_filter (P : A → Prop) `{∀ x, Decision (P x)} x l :
  (∀ y, P x → P y → ltb (key y) (key x) = false) →
  filter P (insert_stable key ltb x l) = filter P (x :: l).
Proof.
  intros HP. induction l as [|y l IH]; [done|]. simpl.
  destruct (ltb (key y) (key x)) eqn:Hyx; [|done].
  rewrite filter_cons, IH, !filter_cons.
  destruct (decide (P y)) as [Hy|Hy], (decide (P x)) as [Hx|Hx]; try done.
  by rewrite (HP y Hx Hy) in Hyx.
Qed.

Lemma sorted_filter (P : A → Prop) `{∀ x, Decision (P x)} l :
  (∀ x y, P x → P y → ltb (key y) (key x) = false) →
  filter P (sorted key ltb l) = filter P l.
Proof.
  intros HP. induction l as [|x l IH]; [done|]. simpl.
  rewrite insert_stable_filter by (intros y; apply HP).
  by rewrite !filter_cons, IH.
Qed.

Lemma sorted_stable `{EqDecision K} (k : K) l :
  filter (λ x, key x = k) (sorted key ltb l)
  = filter (λ x, key x = k) l.
Proof.
  apply sorted_filter. intros x y -> ->. apply ltb_irrefl.
Qed.
End Facts.

Lemma StronglySorted_weaken {A} (R R' : relation A) l :
  (∀ x y, R x y → R' x y) → StronglySorted R l → StronglySorted R' l.
Proof.
  intros HR. induction 1 as [|x l _ IH Hx]; constructor; [done|].
  eapply Forall_impl; [exact Hx|]. auto.
Qed.

(** Sorting the images under [f] is sorting by the key of the image. *)
Lemma sorted_fmap {A B K} (f : A → B) (key : B → K) ltb (l : list A) :
  sorted key ltb (f <$> l) = f <$> sorted (key ∘ f) ltb l.
Proof.
  unfold sorted. induction l as [|x l IH]; [done|].
  rewrite fmap_cons. cbn [foldr]. rewrite IH.
  generalize (foldr (insert_stable (key ∘ f) ltb) [] l). intros l'.
  induction l' as [|y l' IH']; [done|].
  rewrite fmap_cons. cbn [insert_stable compose].
  destruct (ltb (key (f y)) (key (f x))); [|done].
  by rewrite IH', fmap_cons.
Qed.
End SortedFacts.

(** ** LineClusterer *)

Module LineClustererProofs.
Import Py EditDistance EditScripts EditDistanceProofs SortedFacts LineClusterer.

(** The distance of a line to the reference, as [process_batch] pairs it
    with the line. *)
Definition distance_to (base_line line : str) : Z :=
  Z.of_nat (lev base_line line).

(** The lines [process_batch] writes for a batch. *)
Definition sorted_batch (batch : list str) : list str :=
  match batch with
  | [] => []
  | base_line :: _ => sorted (distance_to base_line) Z.ltb batch
  end.

(** Writing in mode ['a'] after the first batch, in mode ['w'] for it. *)
Definition write (batch_num : Z) (output_file lines : list str) : list str :=
  if (batch_num >? 0)%Z then output_file ++ lines else lines.

Lemma Zltb_asym (k1 k2 : Z) : (k1 <? k2)%Z = true → (k2 <? k1)%Z = false.
Proof. lia. Qed.

Lemma Zltb_negtrans (k1 k2 k3 : Z) :
  (k1 <? k2)%Z = false → (k2 <? k3)%Z = false → (k1 <? k3)%Z = false.
Proof. lia. Qed.

Lemma distances_mapM (base_line : str) (batch : list str) :
  mapM (λ line, distance ← levenshtein_distance base_line line;
                Some (distance, line)) batch
  = Some ((λ line, (distance_to base_line line, line)) <$> batch).
Proof.
  induction batch as [|line batch IH]; [done|].
  rewrite fmap_cons. cbn [mapM]. rewrite IH, levenshtein_distance_lev. done.
Qed.

Lemma process_batch_writes (batch : list str) batch_num output_file :
  batch ≠ [] →
  process_batch batch batch_num output_file
  = Some (write batch_num output_file (sorted_batch batch)).
Proof.
  destruct batch as [|base_line rest]; [done|]. intros _.
  unfold process_batch. rewrite distances_mapM. cbn [mbind option_bind].
  rewrite (sorted_fmap (λ line, (distance_to base_line line, line)) fst).
  rewrite <- list_fmap_compose. unfold compose. cbn [snd].
  rewrite list_fmap_id. done.
Qed.

Lemma sorted_batch_perm batch : sorted_batch batch ≡ₚ batch.
Proof. destruct batch; [done|]. apply sorted_perm. Qed.


(** C7. Within a batch, the lines written are those of the batch in order
    of non-decreasing edit distance to the first line of the batch, and
    lines at equal distance keep their order of input. *)
Theorem C7_batch_order (base_line : str) (rest : list str)
    (batch_num : Z) (output_file : list str) :
  let batch := base_line :: rest in
  let distance := levenshtein_distance base_line in
  ∃ written,
    process_batch batch batch_num output_file
    = Some (if (batch_num >? 0)%Z then output_file ++ written else written)
    ∧ written ≡ₚ batch
    ∧ StronglySorted
        (λ l1 l2, ∃ d1 d2, distance l1 = Some d1 ∧ distance l2 = Some d2
                           ∧ (d1 ≤ d2)%Z) written
    ∧ ∀ d, filter (λ l, distance l = Some d) written
           = filter (λ l, distance l = Some d) batch.
Proof.
  intros batch distance. exists (sorted_batch batch).
  split_and!.
  - by rewrite process_batch_writes.
  - apply sorted_batch_perm.
  - eapply StronglySorted_weaken;
      [|apply (sorted_sorted (distance_to base_line) Z.ltb
                 Zltb_asym Zltb_negtrans)].
    intros l1 l2 H12. unfold not_after in H12.
    exists (distance_to base_line l1), (distance_to base_line l2).
    unfold distance. rewrite !levenshtein_distance_lev.
    split_and!; [done..|lia].
  - intros d. unfold distance.
    assert (Hext : ∀ l : str,
      levenshtein_distance base_line l = Some d ↔ distance_to base_line l = d).
    { intros l. rewrite levenshtein_distance_lev. unfold distance_to.
      split; congruence. }
    rewrite !(list_filter_iff _ _ _ Hext).
    apply (sorted_stable (distance_to base_line) Z.ltb Zltb_asym).
Qed.

Section Batches.
Variable decode : str → str.

(** The cleaned form of an input line: non-printable characters
    replaced, then whitespace trimmed. *)
Definition cleaned_line (byte_line : str) : str :=
  strip (clean_line (decode byte_line)).

(** The cleaned lines that are not blank, in input order. *)
Definition kept_lines (byte_lines : list str) : list str :=
  filter (λ line, line ≠ []) (cleaned_line <$> byte_lines).








End Batches.
End LineClustererProofs.

(** ** Facts about the built-ins *)

Module PyFacts.
Import Py.

Lemma reverse_eq_rev {A} (l : list A) : reverse l = rev l.
Proof. unfold reverse. by rewrite <- rev_alt. Qed.

Lemma rev_nil_inv {A} (l : list A) : rev l = [] → l = [].
Proof.
  intros Hr. apply (f_equal (@rev A)) in Hr. by rewrite rev_involutive in Hr.
Qed.

(** *** Runs and [split] *)

Section Runs.
Variable p : ascii → bool.

Lemma runs_go_run w : ∀ cur s,
  Forall (λ c, p c = true) w →
  runs_go p cur (w ++ s) = runs_go p (rev w ++ cur) s.
Proof.
  induction w as [|c w IH]; intros cur s Hw; [done|].
  apply Forall_cons in Hw as [Hc Hw].
  cbn [app runs_go]. rewrite Hc, IH by done.
  simpl. by rewrite <- app_assoc.
Qed.

Lemma runs_go_gap t : ∀ cur,
  Forall (λ c, p c = false) t →
  runs_go p cur t = runs_go p cur [].
Proof.
  induction t as [|c t IH]; intros cur Ht; [done|].
  apply Forall_cons in Ht as [Hc Ht].
  cbn [runs_go]. rewrite Hc. destruct cur; rewrite IH by done; done.
Qed.

Lemma runs_go_app_gap s t : ∀ cur,
  Forall (λ c, p c = false) t →
  runs_go p cur (s ++ t) = runs_go p cur s.
Proof.
  induction s as [|c s IH]; intros cur Ht.
  - by apply runs_go_gap.
  - cbn [app runs_go]. destruct (p c); [by apply IH|].
    destruct cur; by rewrite IH.
Qed.

Lemma runs_go_gap_app t s :
  Forall (λ c, p c = false) t →
  runs_go p [] (t ++ s) = runs_go p [] s.
Proof.
  induction t as [|c t IH]; intros Ht; [done|].
  apply Forall_cons in Ht as [Hc Ht].
  cbn [app runs_go]. rewrite Hc. by apply IH.
Qed.

(** A run, a separating character, and the rest. *)
Lemma runs_go_word w c s :
  w ≠ [] → Forall (λ c, p c = true) w → p c = false →
  runs_go p [] (w ++ c :: s) = w :: runs_go p [] s.
Proof.
  intros Hne Hw Hc. rewrite runs_go_run by done. rewrite app_nil_r.
  cbn [runs_go]. rewrite Hc.
  destruct (rev w) eqn:Hrev.
  - apply (f_equal (@rev ascii)) in Hrev. rewrite rev_involutive in Hrev.
    done.
  - by rewrite <- Hrev, rev_involutive.
Qed.

(** The runs contain only characters of the class, and at least one. *)
Lemma runs_go_Forall s : ∀ cur,
  Forall (λ c, p c = true) cur →
  Forall (λ w, w ≠ [] ∧ Forall (λ c, p c = true) w) (runs_go p cur s).
Proof.
  assert (Hrev : ∀ cur : str, cur ≠ [] → Forall (λ c, p c = true) cur →
            rev cur ≠ [] ∧ Forall (λ c, p c = true) (rev cur)).
  { intros cur Hne Hcur. split.
    - intros Hr. apply (f_equal (@rev ascii)) in Hr.
      by rewrite rev_involutive in Hr.
    - by rewrite <- reverse_eq_rev, Forall_reverse. }
  induction s as [|c s IH]; intros cur Hcur; cbn [runs_go].
  - destruct cur; [constructor|]. constructor; [|constructor].
    by apply Hrev.
  - destruct (p c) eqn:Hc; [apply IH; by constructor|].
    destruct cur; [by apply IH|].
    constructor; [by apply Hrev|]. by apply IH.
Qed.

Lemma runs_Forall s :
  Forall (λ w, w ≠ [] ∧ Forall (λ c, p c = true) w) (runs p s).
Proof. by apply runs_go_Forall. Qed.
End Runs.

Definition word_like (w : str) : Prop :=
  w ≠ [] ∧ Forall (λ c, isspace c = false) w.

Lemma negb_isspace_true (w : str) :
  Forall (λ c, isspace c = false) w ↔ Forall (λ c, negb (isspace c) = true) w.
Proof.
  apply Forall_iff. intros c. by destruct (isspace c).
Qed.

Lemma negb_isspace_false (t : str) :
  Forall (λ c, isspace c = true) t ↔ Forall (λ c, negb (isspace c) = false) t.
Proof.
  apply Forall_iff. intros c. by destruct (isspace c).
Qed.

Lemma split_word_like s : Forall word_like (split s).
Proof.
  eapply Forall_impl; [apply runs_Forall|]. intros w [Hne Hw]. split; [done|].
  by apply negb_isspace_true.
Qed.

(** *** [strip] *)

Lemma lstrip_split s : ∃ t,
  s = t ++ lstrip s ∧ Forall (λ c, isspace c = true) t.
Proof.
  induction s as [|c s (t & Hs & Ht)]; [by exists []|]. simpl.
  destruct (isspace c) eqn:Hc.
  - exists (c :: t). split; [by rewrite Hs at 1|by constructor].
  - by exists [].
Qed.

Lemma rstrip_split s : ∃ t,
  s = rstrip s ++ t ∧ Forall (λ c, isspace c = true) t.
Proof.
  unfold rstrip. destruct (lstrip_split (rev s)) as (t & Hs & Ht).
  exists (rev t). split.
  - rewrite <- rev_app_distr, <- Hs. by rewrite rev_involutive.
  - by rewrite <- reverse_eq_rev, Forall_reverse.
Qed.

Lemma strip_split s : ∃ t1 t2,
  s = t1 ++ strip s ++ t2
  ∧ Forall (λ c, isspace c = true) t1 ∧ Forall (λ c, isspace c = true) t2.
Proof.
  destruct (lstrip_split s) as (t1 & Hs1 & Ht1).
  destruct (rstrip_split (lstrip s)) as (t2 & Hs2 & Ht2).
  exists t1, t2. unfold strip. by rewrite <- Hs2.
Qed.

Lemma split_strip s : split (strip s) = split s.
Proof.
  destruct (strip_split s) as (t1 & t2 & Hs & Ht1 & Ht2).
  rewrite Hs at 2. unfold split, runs.
  rewrite runs_go_gap_app by (by apply negb_isspace_false).
  by rewrite runs_go_app_gap by (by apply negb_isspace_false).
Qed.

Lemma lstrip_id c s : isspace c = false → lstrip (c :: s) = c :: s.
Proof. intros Hc. simpl. by rewrite Hc. Qed.

Lemma strip_word_like w : word_like w → strip w = w.
Proof.
  intros [Hne Hw]. unfold strip, rstrip.
  destruct w as [|c w]; [done|].
  rewrite lstrip_id by (by apply Forall_cons in Hw as []).
  destruct (rev (c :: w)) as [|d r] eqn:Hrev.
  { apply (f_equal (@rev ascii)) in Hrev. by rewrite rev_involutive in Hrev. }
  rewrite lstrip_id, <- Hrev, rev_involutive; [done|].
  assert (Hd : d ∈ rev (c :: w)) by (rewrite Hrev; left).
  rewrite <- reverse_eq_rev, elem_of_reverse in Hd.
  by apply (proj1 (Forall_forall _ _) Hw).
Qed.

Lemma lstrip_app_stop x c y :
  isspace c = false → lstrip (x ++ c :: y) = lstrip x ++ c :: y.
Proof.
  intros Hc. induction x as [|d x IH]; simpl; [by rewrite Hc|].
  by destruct (isspace d).
Qed.

Lemma rstrip_app_stop x c y :
  isspace c = false → rstrip (x ++ c :: y) = x ++ c :: rstrip y.
Proof.
  intros Hc. unfold rstrip. rewrite rev_app_distr. cbn [rev].
  rewrite <- app_assoc. cbn [app]. rewrite lstrip_app_stop by done.
  rewrite rev_app_distr. cbn [rev]. rewrite rev_involutive.
  by rewrite <- app_assoc.
Qed.

Lemma strip_app_stop x c y :
  isspace c = false → strip (x ++ c :: y) = lstrip x ++ c :: rstrip y.
Proof.
  intros Hc. unfold strip.
  by rewrite lstrip_app_stop, rstrip_app_stop.
Qed.

Lemma lstrip_elem c s : c ∈ lstrip s → c ∈ s.
Proof.
  induction s as [|d s IH]; [done|]. simpl.
  destruct (isspace d); [|done]. intros Hc. right. by apply IH.
Qed.

(** *** [split] on a separator *)

Lemma split_on_nonempty sep s : split_on sep s ≠ [].
Proof.
  induction s as [|c s IH]; [done|]. simpl.
  case_decide; [done|]. by destruct (split_on sep s).
Qed.

Lemma split_on_field sep a b :
  sep ∉ a → split_on sep (a ++ sep :: b) = a :: split_on sep b.
Proof.
  induction a as [|c a IH]; intros Ha.
  - simpl. by rewrite decide_True.
  - apply not_elem_of_cons in Ha as [Hc Ha].
    cbn [app split_on]. rewrite decide_False by done. by rewrite IH.
Qed.


(** *** [join] and back *)

Lemma join_cons sep w ws :
  ws ≠ [] → join sep (w :: ws) = w ++ sep ++ join sep ws.
Proof. by destruct ws. Qed.

Lemma split_join_go (ws : list str) (t : str) :
  Forall word_like ws → Forall (λ c, isspace c = true) t → t ≠ [] →
  split (join (lit " ") ws ++ t) = ws.
Proof.
  intros Hws Ht Hne. unfold split, runs.
  induction Hws as [|w ws [Hw1 Hw2] Hws IH].
  { simpl. rewrite runs_go_gap; [done|by apply negb_isspace_false]. }
  destruct ws as [|w' ws].
  - cbn [join]. destruct t as [|c t]; [done|].
    apply Forall_cons in Ht as [Hc Ht].
    rewrite runs_go_word; [|done|by apply negb_isspace_true|by rewrite Hc].
    f_equal. rewrite runs_go_gap; [done|by apply negb_isspace_false].
  - rewrite join_cons by done. rewrite <- !app_assoc.
    change (lit " " ++ ?x) with (" "%char :: x).
    rewrite runs_go_word; [|done|by apply negb_isspace_true|done].
    f_equal. apply IH.
Qed.

Lemma split_join_line (ws : list str) :
  Forall word_like ws → split (strip (join (lit " ") ws ++ [LF])) = ws.
Proof.
  intros Hws. rewrite split_strip. apply split_join_go; [done| |done].
  by repeat constructor.
Qed.

(** *** Decimal numerals: [int(str(n)) == n] *)

Definition is_digit (c : ascii) : Prop := between 48 57 c = true.

(** The characters of a written id. *)
Definition id_char (c : ascii) : Prop := is_digit c ∨ c = "-"%char.

Lemma digit_char_spec d :
  (0 ≤ d < 10)%Z →
  is_digit (digit_char d) ∧ digit_val (digit_char d) = Some d.
Proof.
  intros Hd.
  assert (d = 0 ∨ d = 1 ∨ d = 2 ∨ d = 3 ∨ d = 4 ∨ d = 5 ∨ d = 6 ∨ d = 7
          ∨ d = 8 ∨ d = 9)%Z as Hcases by lia.
  repeat (destruct Hcases as [->|Hcases]); try subst d; by vm_compute.
Qed.

Lemma is_digit_val c : is_digit c → ∃ d, digit_val c = Some d.
Proof. unfold is_digit, digit_val. intros ->. eauto. Qed.

Lemma id_char_plain c :
  id_char c → isspace c = false ∧ c ≠ LF ∧ c ≠ CR.
Proof.
  intros [Hc| ->]; [|by vm_compute].
  unfold is_digit, isspace, between in *.
  split_and!; [lia|intros ->; by vm_compute in Hc..].
Qed.

Lemma parse_digits_digit a b c d rest :
  is_digit c → digit_val c = Some d →
  parse_digits a b (c :: rest) = parse_digits (10 * a + d) true rest.
Proof.
  intros Hc Hd. cbn [parse_digits]. rewrite Hd.
  rewrite decide_False; [done|]. intros ->. by vm_compute in Hc.
Qed.

Lemma digits_go_spec fuel : ∀ n,
  (0 ≤ n < 2 ^ Z.of_nat fuel)%Z → 0 < fuel →
  ∃ ds, ds ≠ [] ∧ Forall is_digit ds
        ∧ (∀ acc, digits_go fuel n acc = ds ++ acc)
        ∧ (∀ a b rest, parse_digits a b (ds ++ rest)
                       = parse_digits (a * 10 ^ Z.of_nat (length ds) + n)
                           true rest).
Proof.
  induction fuel as [|fuel IH]; intros n Hn Hfuel; [lia|].
  destruct (digit_char_spec (n mod 10)) as [Hd1 Hd2].
  { apply Z.mod_pos_bound. lia. }
  cbn [digits_go]. destruct (n / 10 =? 0)%Z eqn:Hq.
  - exists [digit_char (n mod 10)]. split_and!; [done|by constructor|done|].
    intros a b rest. cbn [app length].
    rewrite (parse_digits_digit _ _ _ _ _ Hd1 Hd2). f_equal.
    apply Z.eqb_eq in Hq.
    pose proof (Z.div_mod n 10). lia.
  - apply Z.eqb_neq in Hq.
    assert (10 ≤ n)%Z.
    { destruct (Z_lt_le_dec n 10); [|done].
      rewrite Z.div_small in Hq by lia. done. }
    rewrite Nat2Z.inj_succ, Z.pow_succ_r in Hn by lia.
    assert (0 < fuel).
    { destruct fuel; [|lia]. simpl in Hn. lia. }
    destruct (IH (n / 10)%Z) as (ds & Hne & Hds & Hgo & Hparse); [|done|].
    { split; [apply Z.div_pos; lia|].
      apply Z.div_lt_upper_bound; lia. }
    exists (ds ++ [digit_char (n mod 10)]). split_and!.
    + by destruct ds.
    + apply Forall_app. split; [done|by constructor].
    + intros acc. rewrite Hgo. by rewrite <- app_assoc.
    + intros a b rest. rewrite <- app_assoc. cbn [app].
      rewrite Hparse, (parse_digits_digit _ _ _ _ _ Hd1 Hd2).
      f_equal. rewrite length_app. cbn [length].
      rewrite Nat2Z.inj_add, Z.pow_add_r by lia.
      pose proof (Z.div_mod n 10). lia.
Qed.

Lemma str_of_nonneg_spec n :
  (0 ≤ n)%Z →
  ∃ ds, str_of_nonneg n = ds ∧ ds ≠ [] ∧ Forall is_digit ds
        ∧ parse_digits 0 false ds = Some n.
Proof.
  intros Hn. unfold str_of_nonneg.
  destruct (digits_go_spec (S (Z.to_nat (Z.log2 n))) n)
    as (ds & Hne & Hds & Hgo & Hparse); [|lia|].
  { split; [done|]. rewrite Nat2Z.inj_succ, Z2Nat.id by apply Z.log2_nonneg.
    destruct (decide (n = 0%Z)) as [->|]; [done|].
    apply Z.log2_spec. lia. }
  exists ds. rewrite Hgo, app_nil_r. split_and!; [done..|].
  specialize (Hparse 0%Z false []). rewrite app_nil_r in Hparse.
  by rewrite Hparse.
Qed.

Lemma is_digit_id_chars ds : Forall is_digit ds → Forall id_char ds.
Proof. intros Hds. eapply Forall_impl; [exact Hds|]. by left. Qed.

Lemma str_of_int_id_chars n :
  str_of_int n ≠ [] ∧ Forall id_char (str_of_int n).
Proof.
  unfold str_of_int. destruct (n <? 0)%Z eqn:Hn.
  - destruct (str_of_nonneg_spec (- n)) as (ds & -> & _ & Hds & _); [lia|].
    split; [done|]. constructor; [by right|by apply is_digit_id_chars].
  - destruct (str_of_nonneg_spec n) as (ds & -> & Hne & Hds & _); [lia|].
    split; [done|by apply is_digit_id_chars].
Qed.

Lemma id_chars_word_like w : w ≠ [] → Forall id_char w → word_like w.
Proof.
  intros Hne Hw. split; [done|]. eapply Forall_impl; [exact Hw|].
  intros c Hc. by apply id_char_plain.
Qed.

Lemma str_of_int_word_like n : word_like (str_of_int n).
Proof. destruct (str_of_int_id_chars n). by apply id_chars_word_like. Qed.

Lemma int_of_str_of_int n : int_of_str (str_of_int n) = Some n.
Proof.
  unfold int_of_str. rewrite strip_word_like by apply str_of_int_word_like.
  unfold str_of_int. destruct (n <? 0)%Z eqn:Hn.
  - destruct (str_of_nonneg_spec (- n)) as (ds & -> & _ & _ & Hp); [lia|].
    rewrite decide_False by done. rewrite decide_True by done.
    rewrite Hp. simpl. f_equal. lia.
  - destruct (str_of_nonneg_spec n) as (ds & -> & Hne & Hds & Hp); [lia|].
    destruct ds as [|c ds]; [done|].
    apply Forall_cons in Hds as [Hc _].
    rewrite !decide_False; [done|intros ->; by vm_compute in Hc..].
Qed.

(** *** Lines written and read back *)

Lemma universal_newlines_id s :
  Forall (λ c, c ≠ CR) s → universal_newlines s = s.
Proof.
  induction 1 as [|c s Hc _ IH]; [done|]. cbn [universal_newlines].
  rewrite decide_False by done. by rewrite IH.
Qed.

Lemma lines_go_line l : ∀ cur rest,
  Forall (λ c, c ≠ LF) l →
  lines_go cur (l ++ LF :: rest) = (rev cur ++ l ++ [LF]) :: lines_go [] rest.
Proof.
  induction l as [|c l IH]; intros cur rest Hl.
  - cbn [app lines_go]. rewrite decide_True by done. done.
  - apply Forall_cons in Hl as [Hc Hl]. cbn [app lines_go].
    rewrite decide_False by done. rewrite IH by done.
    simpl. by rewrite <- app_assoc.
Qed.

Definition terminated (l : str) : str := l ++ [LF].

Lemma lines_go_written (ls : list str) :
  Forall (Forall (λ c, c ≠ LF)) ls →
  lines_go [] (concat (terminated <$> ls)) = terminated <$> ls.
Proof.
  induction 1 as [|l ls Hl _ IH]; [done|].
  rewrite fmap_cons. cbn [concat]. unfold terminated at 1.
  rewrite <- app_assoc. cbn [app]. rewrite lines_go_line by done.
  by rewrite IH.
Qed.

Lemma file_lines_written (ls : list str) :
  Forall (Forall (λ c, c ≠ LF ∧ c ≠ CR)) ls →
  file_lines (concat (terminated <$> ls)) = terminated <$> ls.
Proof.
  intros Hls. unfold file_lines. rewrite universal_newlines_id.
  - apply lines_go_written. eapply Forall_impl; [exact Hls|].
    intros l Hl. eapply Forall_impl; [exact Hl|]. by intros c [].
  - apply Forall_concat, Forall_fmap.
    eapply Forall_impl; [exact Hls|]. intros l Hl. simpl.
    apply Forall_app. split; [|by repeat constructor].
    eapply Forall_impl; [exact Hl|]. by intros c [].
Qed.

Lemma join_Forall (P : ascii → Prop) sep ws :
  Forall P sep → Forall (Forall P) ws → Forall P (join sep ws).
Proof.
  intros Hsep. induction 1 as [|w ws Hw Hws IH]; [constructor|].
  destruct ws as [|w' ws]; [done|]. rewrite join_cons by done.
  rewrite !Forall_app. auto.
Qed.

(** *** Case folding keeps the words apart *)

Lemma isspace_lower_char c : isspace (lower_char c) = isspace c.
Proof. by destruct c as [[] [] [] [] [] [] [] []]. Qed.

Lemma lstrip_lower s : lstrip (lower s) = lower (lstrip s).
Proof.
  induction s as [|c s IH]; [done|]. simpl.
  rewrite isspace_lower_char. by destruct (isspace c).
Qed.

Lemma lower_rev s : lower (rev s) = rev (lower s).
Proof. unfold lower. by rewrite map_rev. Qed.

Lemma lower_app s t : lower (s ++ t) = lower s ++ lower t.
Proof. apply map_app. Qed.

Lemma strip_lower s : strip (lower s) = lower (strip s).
Proof.
  unfold strip, rstrip.
  by rewrite lstrip_lower, <- lower_rev, lstrip_lower, lower_rev.
Qed.

Lemma runs_go_lower s : ∀ cur,
  runs_go (λ c, negb (isspace c)) (lower cur) (lower s)
  = lower <$> runs_go (λ c, negb (isspace c)) cur s.
Proof.
  induction s as [|c s IH]; intros cur.
  - simpl. destruct cur; [done|]. simpl.
    by rewrite lower_app, lower_rev.
  - cbn [lower map runs_go]. rewrite isspace_lower_char.
    destruct (isspace c); cbn [negb].
    + destruct cur as [|d cur]; [apply (IH [])|].
      cbn [map fmap list_fmap]. rewrite <- (IH []).
      f_equal. simpl. by rewrite lower_app, lower_rev.
    + apply (IH (c :: cur)).
Qed.

Lemma split_lower s : split (lower s) = lower <$> split s.
Proof. apply (runs_go_lower s []). Qed.
End PyFacts.

(** ** Vocabulary and codec *)

Module DictCoderProofs.
Import Py PyFacts DictCoder.

(** The distinct tokens of a sequence, in the order of their first
    occurrence. *)
Definition first_occurrences (tokens : list str) : list str :=
  foldl (λ seen t, if decide (t ∈ seen) then seen else seen ++ [t]) [] tokens.

(** The words of the rows of a dictionary file, in file order. *)
Definition dict_words (dict_file : str) : list str :=
  omap row_word (drop 2 (file_lines dict_file)).

(** [order] lists the tokens of the vocabulary by id: the token at
    position [i] has id [i], in both dictionaries, and the next id is the
    number of tokens. *)
Definition assigned (c : coder) (order : list str) : Prop :=
  NoDup order
  ∧ next_id c = Z.of_nat (length order)
  ∧ (∀ t i, word_to_id c !! t = Some i
            ↔ (0 ≤ i)%Z ∧ order !! Z.to_nat i = Some t)
  ∧ (∀ i t, id_to_word c !! i = Some t
            ↔ (0 ≤ i)%Z ∧ order !! Z.to_nat i = Some t).

Lemma first_occurrences_snoc tokens t :
  first_occurrences (tokens ++ [t])
  = if decide (t ∈ first_occurrences tokens) then first_occurrences tokens
    else first_occurrences tokens ++ [t].
Proof. unfold first_occurrences. by rewrite foldl_app. Qed.

Lemma first_occurrences_elem tokens t :
  t ∈ first_occurrences tokens ↔ t ∈ tokens.
Proof.
  induction tokens as [|u tokens IH] using rev_ind.
  { done. }
  rewrite first_occurrences_snoc, elem_of_app, list_elem_of_singleton.
  case_decide as Hu; [|rewrite elem_of_app, list_elem_of_singleton; tauto].
  split; [tauto|]. intros [?| ->]; tauto.
Qed.

Lemma first_occurrences_NoDup tokens : NoDup (first_occurrences tokens).
Proof.
  induction tokens as [|u tokens IH] using rev_ind.
  { constructor. }
  rewrite first_occurrences_snoc. case_decide as Hu; [done|].
  apply NoDup_app. split_and!; [done| |apply NoDup_singleton].
  intros x Hx ->%list_elem_of_singleton. done.
Qed.

Lemma assigned_init : assigned init [].
Proof.
  split_and!; [constructor|done|..]; intros; simpl;
    rewrite lookup_empty; split; [done|by intros []|done|by intros []].
Qed.

Lemma assigned_elem c order t :
  assigned c order → t ∈ order ↔ is_Some (word_to_id c !! t).
Proof.
  intros (_ & _ & Hw & _). rewrite list_elem_of_lookup. split.
  - intros [k Hk]. exists (Z.of_nat k). apply Hw.
    rewrite Nat2Z.id. split; [lia|done].
  - intros [i Hi]. apply Hw in Hi as [_ Hi]. eauto.
Qed.

Lemma lookup_snoc_Some (order : list str) (t u : str) (k : nat) :
  (order ++ [u]) !! k = Some t
  ↔ order !! k = Some t ∨ (k = length order ∧ t = u).
Proof.
  rewrite lookup_app_Some, list_lookup_singleton_Some. split.
  - intros [?|(? & ? & ?)]; [by left|right]. split; [lia|done].
  - intros [?|[-> ->]]; [by left|right].
    split_and!; [lia|lia|done].
Qed.

Lemma assigned_assign c order word :
  assigned c order → word_to_id c !! word = None →
  assigned (assign c word) (order ++ [word]).
Proof.
  intros Ha Hnew. pose proof (assigned_elem c order word Ha) as Hel.
  destruct Ha as (Hnd & Hnext & Hw & Hi).
  assert (Hnotin : word ∉ order).
  { rewrite Hel, Hnew. by intros []. }
  split_and!.
  - apply NoDup_app. split_and!; [done| |apply NoDup_singleton].
    intros x Hx ->%list_elem_of_singleton. done.
  - simpl. rewrite length_app. simpl. lia.
  - intros t i. simpl. rewrite lookup_snoc_Some, lookup_insert.
    case_decide as Ht.
    + subst t. split.
      * intros [= <-]. split; [lia|]. right. split; [lia|done].
      * intros [Hi0 [Hk|[Hk _]]]; [|f_equal; lia].
        exfalso. apply Hnotin. by eapply list_elem_of_lookup_2.
    + rewrite Hw. split; [intros []; auto|].
      intros [Hi0 [Hk|[_ ->]]]; [done|done].
  - intros i t. simpl. rewrite lookup_snoc_Some, lookup_insert.
    case_decide as Hi'.
    + subst i. split.
      * intros [= <-]. split; [lia|]. right. split; [lia|done].
      * intros [Hi0 [Hk|[_ ->]]]; [|done].
        apply lookup_lt_Some in Hk. lia.
    + rewrite Hi. split; [intros []; auto|].
      intros [Hi0 [Hk|[Hk _]]]; [done|]. lia.
Qed.

(** One row of the dictionary file. *)
Lemma load_row_assigned c log line :
  assigned c (first_occurrences log) →
  assigned (load_row c line)
    (first_occurrences (log ++ from_option (λ w, [w]) [] (row_word line))).
Proof.
  intros Ha. unfold load_row. destruct (row_word line) as [word|].
  - cbn [from_option]. rewrite first_occurrences_snoc.
    pose proof (assigned_elem _ _ word Ha) as Hel.
    destruct (decide (is_Some (word_to_id c !! word))) as [Hin|Hout].
    + rewrite decide_True by (by apply Hel). done.
    + rewrite decide_False by (by rewrite Hel).
      apply assigned_assign; [done|].
      by apply eq_None_not_Some.
  - cbn [from_option]. by rewrite app_nil_r.
Qed.

Lemma load_rows_assigned rows : ∀ c log,
  assigned c (first_occurrences log) →
  assigned (foldl load_row c rows)
    (first_occurrences (log ++ omap row_word rows)).
Proof.
  induction rows as [|line rows IH]; intros c log Ha.
  { simpl. by rewrite app_nil_r. }
  cbn [foldl omap list_omap].
  pose proof (load_row_assigned c log line Ha) as Ha'.
  apply IH in Ha'. rewrite <- app_assoc in Ha'.
  by destruct (row_word line).
Qed.

Lemma load_dictionary_assigned c log dict_file c' :
  assigned c (first_occurrences log) →
  load_dictionary c dict_file = Some c' →
  assigned c' (first_occurrences (log ++ dict_words dict_file)).
Proof.
  intros Ha. unfold load_dictionary, dict_words.
  destruct (file_lines dict_file) as [|? [|? rows]]; [done..|].
  intros [= <-]. by apply load_rows_assigned.
Qed.

(** *** Encoding *)

(** A word the vocabulary does not hold. *)
Definition oov (c : coder) (word : str) : Prop :=
  word_to_id c !! lower word = None.

Global Instance oov_dec c word : Decision (oov c word).
Proof. unfold oov. apply _. Defined.

(** The vocabulary token that stands for a word. *)
Definition target (c : coder) (word : str) : str :=
  if decide (oov c word) then unk else lower word.

(** The coder after the words [words] were encoded: [unk] was assigned
    if it was missing and one of the words was not in the vocabulary. *)
Definition after_run (c : coder) (words : list str) : coder :=
  if decide (word_to_id c !! unk = None ∧ Exists (oov c) words)
  then assign c unk else c.

Lemma after_run_nil c : after_run c [] = c.
Proof.
  unfold after_run. rewrite decide_False; [done|].
  intros [_ H]. by apply Exists_nil in H.
Qed.

Lemma word_to_id_after_run c words t i :
  word_to_id c !! t = Some i → word_to_id (after_run c words) !! t = Some i.
Proof.
  intros Ht. unfold after_run. case_decide as Hc; [|done].
  simpl. rewrite lookup_insert_ne; [done|]. intros <-.
  destruct Hc as [Hc _]. congruence.
Qed.

Lemma word_to_id_after_run_inv c words t :
  word_to_id c !! t = None → is_Some (word_to_id (after_run c words) !! t) →
  t = unk.
Proof.
  intros Ht. unfold after_run. case_decide as Hc.
  - simpl. rewrite lookup_insert. case_decide; [done|].
    rewrite Ht. by intros [].
  - rewrite Ht. by intros [].
Qed.

Lemma oov_after_run c words word :
  oov (after_run c words) word → oov c word.
Proof.
  unfold oov. intros Hw.
  destruct (word_to_id c !! lower word) as [i|] eqn:Hc; [|done].
  by rewrite (word_to_id_after_run _ words _ _ Hc) in Hw.
Qed.

Lemma target_after_run c words word :
  target (after_run c words) word = target c word.
Proof.
  unfold target.
  destruct (decide (oov (after_run c words) word)) as [Ha|Ha],
           (decide (oov c word)) as [Hc|Hc]; try done.
  - by apply oov_after_run in Ha.
  - apply (word_to_id_after_run_inv c words); [done|].
    by apply not_eq_None_Some.
Qed.

Lemma after_run_app c ws1 ws2 :
  after_run (after_run c ws1) ws2 = after_run c (ws1 ++ ws2).
Proof.
  unfold after_run at 2 3.
  destruct (decide (word_to_id c !! unk = None ∧ Exists (oov c) ws1))
    as [[Hu H1]|H1].
  - rewrite (decide_True (P := _ ∧ Exists _ (ws1 ++ ws2))).
    + unfold after_run. rewrite decide_False; [done|].
      simpl. rewrite lookup_insert_eq. by intros [? _].
    + split; [done|]. apply Exists_app. by left.
  - unfold after_run. apply decide_ext. rewrite Exists_app. tauto.
Qed.

Lemma encode_word_run c word :
  ∃ id, encode_word c word = Some (after_run c [word], str_of_int id)
        ∧ word_to_id (after_run c [word]) !! target c word = Some id.
Proof.
  unfold encode_word, after_run, target.
  destruct (decide (oov c word)) as [Hw|Hw]; unfold oov in Hw.
  2: { destruct (word_to_id c !! lower word) as [i|] eqn:Hi; [|done].
       exists i. rewrite decide_False; [done|].
       intros [_ He]. apply Exists_cons in He as [He|He]; [|by inversion He].
       unfold oov in He. congruence. }
  rewrite Hw.
  - destruct (word_to_id c !! unk) as [u|] eqn:Hu.
    + exists u. rewrite decide_True by eauto.
      rewrite decide_False by (by intros [? _]).
      rewrite Hu. done.
    + exists (next_id c). rewrite decide_False by (by intros []).
      rewrite decide_True.
      * simpl. by rewrite lookup_insert_eq.
      * split; [done|]. by left.
Qed.

Lemma encode_words_run words : ∀ c encoded_line,
  ∃ ids,
    encode_words c words encoded_line
    = Some (after_run c words, encoded_line ++ (str_of_int <$> ids))
    ∧ Forall2 (λ word id,
                 word_to_id (after_run c words) !! target c word = Some id)
        words ids.
Proof.
  induction words as [|word words IH]; intros c encoded_line.
  { exists []. rewrite after_run_nil, app_nil_r. by split; [|constructor]. }
  destruct (encode_word_run c word) as (id & Hword & Hid).
  destruct (IH (after_run c [word]) (encoded_line ++ [str_of_int id]))
    as (ids & Hwords & Hids).
  rewrite after_run_app in Hwords, Hids. cbn [app] in Hwords, Hids.
  exists (id :: ids). split.
  - cbn [encode_words]. rewrite Hword. cbn [mbind option_bind].
    rewrite Hwords, fmap_cons. by rewrite <- app_assoc.
  - constructor.
    + change (word :: words) with ([word] ++ words).
      rewrite <- after_run_app. by apply word_to_id_after_run.
    + eapply Forall2_impl; [exact Hids|]. intros w i. cbn beta.
      by rewrite target_after_run.
Qed.

(** The words of the lines of a text, line by line. *)
Definition line_words (line : str) : list str := split (strip line).

(** A written line of ids. *)
Definition id_line (ids : list Z) : str :=
  terminated (join (lit " ") (str_of_int <$> ids)).

Lemma encode_lines_run lines : ∀ c out_f,
  ∃ idss,
    encode_lines c lines out_f
    = Some (after_run c (concat (line_words <$> lines)),
            out_f ++ concat (id_line <$> idss))
    ∧ Forall2 (λ line ids,
         Forall2 (λ word id,
                    word_to_id (after_run c (concat (line_words <$> lines)))
                      !! target c word = Some id)
           (line_words line) ids)
        lines idss.
Proof.
  induction lines as [|line lines IH]; intros c out_f.
  { exists []. simpl. rewrite after_run_nil, app_nil_r.
    by split; [|constructor]. }
  destruct (encode_words_run (line_words line) c []) as (ids & Hline & Hids).
  destruct (IH (after_run c (line_words line)) (out_f ++ id_line ids))
    as (idss & Hlines & Hidss).
  rewrite after_run_app in Hlines, Hidss.
  exists (ids :: idss). rewrite !fmap_cons. cbn [concat]. split.
  - cbn [encode_lines]. fold (line_words line). rewrite Hline.
    cbn [mbind option_bind app]. unfold id_line, terminated in Hlines.
    rewrite <- app_assoc in Hlines. rewrite Hlines.
    unfold id_line, terminated. by rewrite <- !app_assoc.
  - constructor.
    + eapply Forall2_impl; [exact Hids|]. intros w i. cbn beta. intros Hw.
      rewrite <- (after_run_app c (line_words line)).
      by apply word_to_id_after_run.
    + eapply Forall2_impl; [exact Hidss|]. intros l is_. cbn beta.
      intros Hl. eapply Forall2_impl; [exact Hl|].
      intros w i. cbn beta. by rewrite target_after_run.
Qed.

(** The token [unk], once for every word of [words] that the vocabulary
    [c] does not hold: what an encoding run presents for assignment. *)
Definition unknowns (c : coder) (words : list str) : list str :=
  (λ _, unk) <$> filter (oov c) words.

Definition input_words (input_file : str) : list str :=
  concat (line_words <$> file_lines input_file).

Lemma first_occurrences_repeat_seen log u (l : list str) :
  u ∈ first_occurrences log →
  first_occurrences (log ++ ((λ _, u) <$> l)) = first_occurrences log.
Proof.
  intros Hu. induction l as [|x l IH] using rev_ind.
  { by rewrite app_nil_r. }
  rewrite fmap_app, app_assoc. cbn [fmap list_fmap].
  rewrite first_occurrences_snoc, IH. by rewrite decide_True.
Qed.

Lemma first_occurrences_repeat_new log u (l : list str) :
  u ∉ first_occurrences log → l ≠ [] →
  first_occurrences (log ++ ((λ _, u) <$> l)) = first_occurrences log ++ [u].
Proof.
  intros Hu Hl. destruct l as [|x l]; [done|].
  rewrite fmap_cons.
  change (log ++ u :: ((λ _, u) <$> l))
    with (log ++ [u] ++ ((λ _, u) <$> l)).
  rewrite app_assoc, first_occurrences_repeat_seen.
  - rewrite first_occurrences_snoc. by rewrite decide_False.
  - rewrite first_occurrences_elem, elem_of_app, list_elem_of_singleton.
    by right.
Qed.

Lemma filter_nil_not_Exists {A} (P : A → Prop) `{∀ x, Decision (P x)} l :
  filter P l = [] ↔ ¬ Exists P l.
Proof.
  induction l as [|x l IH].
  { rewrite Exists_nil. split; [tauto|done]. }
  rewrite filter_cons, Exists_cons. case_decide; [|tauto].
  split; [done|tauto].
Qed.

Lemma assigned_after_run c log words :
  assigned c (first_occurrences log) →
  assigned (after_run c words)
    (first_occurrences (log ++ unknowns c words)).
Proof.
  intros Ha. pose proof (assigned_elem _ _ unk Ha) as Hel.
  unfold after_run, unknowns. case_decide as Hc.
  - destruct Hc as [Hunk Hex].
    rewrite first_occurrences_repeat_new.
    + by apply assigned_assign.
    + rewrite Hel, Hunk. by intros [].
    + intros Hnil. by apply (filter_nil_not_Exists (oov c)) in Hnil.
  - destruct (decide (Exists (oov c) words)) as [Hex|Hex].
    + rewrite first_occurrences_repeat_seen; [done|].
      apply Hel. apply not_eq_None_Some. tauto.
    + apply (filter_nil_not_Exists (oov c)) in Hex. rewrite Hex. simpl.
      by rewrite app_nil_r.
Qed.

(** *** Decoding *)

Lemma decode_ids c ids : ∀ decoded_line,
  foldl (λ decoded_line id_str, decoded_line ++ [decode_id c id_str])
    decoded_line ids
  = decoded_line ++ (decode_id c <$> ids).
Proof.
  induction ids as [|id_str ids IH]; intros decoded_line.
  { by rewrite app_nil_r. }
  cbn [foldl]. rewrite IH, fmap_cons. by rewrite <- app_assoc.
Qed.

Lemma decode_lines_map c lines : ∀ decoded,
  decode_lines c lines decoded
  = decoded ++ ((λ line, decode_id c <$> split (strip line)) <$> lines).
Proof.
  induction lines as [|line lines IH]; intros decoded.
  { by rewrite app_nil_r. }
  cbn [decode_lines]. rewrite IH, decode_ids, fmap_cons.
  by rewrite <- app_assoc.
Qed.

Lemma decoded_lines_map c input_file :
  decoded_lines c input_file
  = (λ line, decode_id c <$> split (strip line)) <$> file_lines input_file.
Proof. unfold decoded_lines. by rewrite decode_lines_map. Qed.

(** *** The states of a coder *)

(** [reachable log c]: the coder [c] results from [DictionaryCoder()] by
    loading dictionary files, encoding texts, and saving and reloading the
    mappings; [log] lists the tokens
    presented for an id on the way, in order: the words of the rows, and
    [unk] for every word of a text that the vocabulary did not hold. *)
Inductive reachable : list str → coder → Prop :=
| reach_init : reachable [] init
| reach_load log c dict_file c' :
    reachable log c → load_dictionary c dict_file = Some c' →
    reachable (log ++ dict_words dict_file) c'
| reach_encode log c input_file c' encoded :
    reachable log c → encode c input_file = Some (c', encoded) →
    reachable (log ++ unknowns c (input_words input_file)) c'
| reach_reload log c c0 :
    reachable log c → reachable log (load_mappings c0 (save_mappings c)).

Lemma encode_run c input_file :
  ∃ idss,
    encode c input_file
    = Some (after_run c (input_words input_file), concat (id_line <$> idss))
    ∧ Forall2 (λ line ids,
         Forall2 (λ word id,
                    word_to_id (after_run c (input_words input_file))
                      !! target c word = Some id)
           (line_words line) ids)
        (file_lines input_file) idss.
Proof. apply (encode_lines_run (file_lines input_file) c []). Qed.

(** The vocabulary has as many tokens as [order]. *)
Lemma assigned_size c order :
  assigned c order → size (word_to_id c) = length order.
Proof.
  intros Ha. rewrite <- (size_dom (D := gset str)).
  assert (dom (word_to_id c) = list_to_set order) as ->.
  { apply set_eq. intros t.
    rewrite elem_of_dom, elem_of_list_to_set. symmetry.
    by apply assigned_elem. }
  apply size_list_to_set, Ha.
Qed.

Lemma assigned_reload c c0 order :
  assigned c order → assigned (load_mappings c0 (save_mappings c)) order.
Proof.
  intros Ha. pose proof (assigned_size c order Ha) as Hsize.
  destruct Ha as (Hnd & Hnext & Hw & Hi).
  split_and!; [done| |done|done]. simpl. by rewrite Hsize.
Qed.

Lemma reachable_assigned log c :
  reachable log c → assigned c (first_occurrences log).
Proof.
  induction 1 as [|log c dict_file c' _ IH Hload
                  |log c input_file c' encoded _ IH Henc
                  |log c c0 _ IH].
  - apply assigned_init.
  - by eapply load_dictionary_assigned.
  - destruct (encode_run c input_file) as (idss & Hrun & _).
    rewrite Hrun in Henc. injection Henc as <- _.
    by apply assigned_after_run.
  - by apply assigned_reload.
Qed.

Lemma assigned_inverse c order t i :
  assigned c order → word_to_id c !! t = Some i → id_to_word c !! i = Some t.
Proof. intros (_ & _ & Hw & Hi) Ht. by apply Hi, Hw. Qed.

Lemma assigned_injective c order t1 t2 i :
  assigned c order →
  word_to_id c !! t1 = Some i → word_to_id c !! t2 = Some i → t1 = t2.
Proof.
  intros (_ & _ & Hw & _) [_ H1]%Hw [_ H2]%Hw. congruence.
Qed.

(** C2. After loading a dictionary file and after any number of
    encoding runs (and of saving and reloading the mappings),
    [id_to_word] inverts [word_to_id], [word_to_id] is injective, and the
    ids are 0, 1, 2, ... in the order in which the tokens were first
    presented. *)
Theorem C2_vocabulary_bijective (log : list str) (c : coder) :
  reachable log c →
  (∀ t i, word_to_id c !! t = Some i → id_to_word c !! i = Some t)
  ∧ (∀ t1 t2 i, word_to_id c !! t1 = Some i → word_to_id c !! t2 = Some i →
                t1 = t2)
  ∧ (∀ t i, word_to_id c !! t = Some i
            ↔ (0 ≤ i)%Z ∧ first_occurrences log !! Z.to_nat i = Some t)
  ∧ next_id c = Z.of_nat (length (first_occurrences log)).
Proof.
  intros Ha%reachable_assigned. split_and!.
  - intros t i. by eapply assigned_inverse.
  - intros t1 t2 i. by eapply assigned_injective.
  - apply Ha.
  - apply Ha.
Qed.

(** The word of a row with a separator: the field behind the first
    separator, trimmed, without a trailing ellipsis. *)
Lemma row_word_fields (rank rest : str) :
  "|"%char ∉ rank →
  row_word (rank ++ "|"%char :: rest)
  = (λ word, if endswith word (lit "...") then drop_last 3 word else word)
    <$> (strip <$> head (split_on "|"%char (rstrip rest))).
Proof.
  intros Hrank. unfold row_word.
  rewrite strip_app_stop by done.
  rewrite split_on_field by (intros H; by apply lstrip_elem in H).
  pose proof (split_on_nonempty "|"%char (rstrip rest)) as Hne.
  destruct (split_on "|"%char (rstrip rest)) as [|w ws]; [done|].
  rewrite decide_False by (simpl; lia). done.
Qed.





(** *** The round trip *)

Lemma decode_id_written c id :
  decode_id c (str_of_int id) = default unk (id_to_word c !! id).
Proof. unfold decode_id. by rewrite int_of_str_of_int. Qed.

Lemma id_line_chars ids :
  Forall (λ ch, ch ≠ LF ∧ ch ≠ CR) (join (lit " ") (str_of_int <$> ids)).
Proof.
  apply join_Forall; [by repeat constructor|].
  apply Forall_fmap, Forall_true. intros id. simpl.
  eapply Forall_impl; [apply str_of_int_id_chars|].
  intros ch Hch. by apply id_char_plain in Hch as (_ & ? & ?).
Qed.

Lemma file_lines_id_lines idss :
  file_lines (concat (id_line <$> idss)) = id_line <$> idss.
Proof.
  assert (id_line <$> idss
          = terminated
            <$> ((λ ids, join (lit " ") (str_of_int <$> ids)) <$> idss))
    as -> by (by rewrite <- list_fmap_compose).
  apply file_lines_written, Forall_fmap, Forall_true.
  intros ids. apply id_line_chars.
Qed.

Lemma split_id_line ids : split (strip (id_line ids)) = str_of_int <$> ids.
Proof.
  apply split_join_line, Forall_fmap, Forall_true.
  intros id. apply str_of_int_word_like.
Qed.

Lemma Forall2_fmap_eq {A B C} (f : A → C) (g : B → C) l k :
  Forall2 (λ x y, f x = g y) l k → f <$> l = g <$> k.
Proof. induction 1; [done|]. rewrite !fmap_cons. congruence. Qed.

Lemma word_like_chars w :
  word_like w → Forall (λ ch, ch ≠ LF ∧ ch ≠ CR) w.
Proof.
  intros [_ Hw]. eapply Forall_impl; [exact Hw|].
  intros ch Hch. split; intros ->; by vm_compute in Hch.
Qed.

(** A text written from lines of whitespace-free tokens is read back as
    these tokens. *)
Lemma tokens_read_back (tokss : list (list str)) :
  Forall (Forall word_like) tokss →
  (λ line, split (strip line))
  <$> file_lines
        (concat ((λ toks, join (lit " ") toks ++ [LF]) <$> tokss))
  = tokss.
Proof.
  intros Htokss.
  assert ((λ toks, join (lit " ") toks ++ [LF]) <$> tokss
          = terminated <$> (join (lit " ") <$> tokss))
    as -> by (by rewrite <- list_fmap_compose).
  rewrite file_lines_written.
  - rewrite <- !list_fmap_compose.
    rewrite <- (list_fmap_id tokss) at 2. apply Forall_fmap_ext_1.
    eapply Forall_impl; [exact Htokss|]. intros toks Htoks.
    by apply split_join_line.
  - apply Forall_fmap. eapply Forall_impl; [exact Htokss|].
    intros toks Htoks. simpl. apply join_Forall; [by repeat constructor|].
    eapply Forall_impl; [exact Htoks|]. apply word_like_chars.
Qed.

(** C1. A text encoded against the vocabulary of a dictionary file and
    decoded with the saved and reloaded mappings gives, line by line,
    the tokens of the case-folded line, each one unchanged if the loaded
    dictionary holds it and replaced by [unk] if not; the decoded text,
    read line by line and split on whitespace, holds exactly these
    tokens. *)
Theorem C1_round_trip (dict_file input_file : str) (c0 : coder) :
  load_dictionary init dict_file = Some c0 →
  ∃ c1 encoded,
    encode c0 input_file = Some (c1, encoded)
    ∧ decoded_lines (load_mappings init (save_mappings c1)) encoded
      = (λ line,
           (λ token, if decide (is_Some (word_to_id c0 !! token))
                     then token else unk)
           <$> split (lower line))
        <$> file_lines input_file
    ∧ (λ line, split (strip line))
      <$> file_lines (decode (load_mappings init (save_mappings c1)) encoded)
      = decoded_lines (load_mappings init (save_mappings c1)) encoded.
Proof.
  intros Hload.
  pose proof (load_dictionary_assigned init [] _ _ assigned_init Hload) as Ha0.
  destruct (encode_run c0 input_file) as (idss & Hrun & Hids).
  pose proof (assigned_after_run c0 _ (input_words input_file) Ha0) as Ha1.
  eexists _, _. split; [exact Hrun|].
  match goal with |- ?L = ?R ∧ _ => assert (Hdec : L = R) end.
  { rewrite decoded_lines_map, file_lines_id_lines.
    rewrite <- list_fmap_compose. apply Forall2_fmap_eq.
    apply Forall2_flip. eapply Forall2_impl; [exact Hids|].
    intros line ids Hline. cbn beta. unfold compose.
    rewrite split_id_line, split_lower, <- !list_fmap_compose.
    rewrite <- (split_strip line). fold (line_words line).
    symmetry. apply Forall2_fmap_eq.
    eapply Forall2_impl; [exact Hline|].
    intros word id Hid. cbn beta. unfold compose.
    rewrite decode_id_written.
    cbn [load_mappings save_mappings id_to_word fst snd].
    rewrite (assigned_inverse _ _ _ _ Ha1 Hid). cbn [default from_option].
    unfold target. destruct (decide (oov c0 word)) as [Hw|Hw]; unfold oov in Hw.
    - rewrite decide_False; [done|]. rewrite Hw. by intros [].
    - rewrite decide_True; [done|]. by apply not_eq_None_Some. }
  split; [exact Hdec|].
  unfold decode. rewrite Hdec. apply tokens_read_back.
  apply Forall_fmap, Forall_true. intros line. simpl.
  apply Forall_fmap. eapply Forall_impl; [apply split_word_like|].
  intros token Htoken. simpl. case_decide; [done|].
  split; [done|by repeat constructor].
Qed.
End DictCoderProofs.

(** ** Decoding under the limit on numerals *)

Module DecodeLimitedProofs.
Import Py PyFacts DictCoder DictCoderProofs.

Lemma int_of_str_limited_off s : int_of_str_limited 0 s = int_of_str s.
Proof. unfold int_of_str_limited. rewrite decide_False; [done|lia]. Qed.

Lemma int_of_str_within_limit max_str_digits s :
  digit_count s ≤ max_str_digits →
  int_of_str_limited max_str_digits s = int_of_str s.
Proof.
  intros Hs. unfold int_of_str_limited. rewrite decide_False; [done|lia].
Qed.

Section Limit.
Variable max_str_digits : nat.

Lemma decode_ids_limited c ids : ∀ decoded_line,
  foldl (λ decoded_line id_str,
           decoded_line ++ [DecodeLimited.decode_id max_str_digits c id_str])
    decoded_line ids
  = decoded_line ++ (DecodeLimited.decode_id max_str_digits c <$> ids).
Proof.
  induction ids as [|id_str ids IH]; intros decoded_line.
  { by rewrite app_nil_r. }
  cbn [foldl]. rewrite IH, fmap_cons. by rewrite <- app_assoc.
Qed.

Lemma decode_lines_limited_map c lines : ∀ decoded,
  DecodeLimited.decode_lines max_str_digits c lines decoded
  = decoded
    ++ ((λ line, DecodeLimited.decode_id max_str_digits c <$> split line)
        <$> lines).
Proof.
  induction lines as [|line lines IH]; intros decoded.
  { by rewrite app_nil_r. }
  cbn [DecodeLimited.decode_lines].
  rewrite IH, decode_ids_limited, split_strip, fmap_cons.
  by rewrite <- app_assoc.
Qed.

Lemma decoded_lines_limited_map c input_file :
  DecodeLimited.decoded_lines max_str_digits c input_file
  = (λ line, DecodeLimited.decode_id max_str_digits c <$> split line)
    <$> file_lines input_file.
Proof.
  unfold DecodeLimited.decoded_lines. by rewrite decode_lines_limited_map.
Qed.

(** Within the limit, and with the limit off, decoding is [decode] of
    [DictCoder]. *)
Lemma decoded_lines_within_limit c input_file :
  Forall (λ line, Forall (λ id_str, max_str_digits = 0
                                    ∨ digit_count id_str ≤ max_str_digits)
                    (split line))
    (file_lines input_file) →
  DecodeLimited.decoded_lines max_str_digits c input_file
  = decoded_lines c input_file.
Proof.
  intros Hall. rewrite decoded_lines_limited_map, decoded_lines_map.
  apply Forall_fmap_ext_1. eapply Forall_impl; [exact Hall|].
  intros line Hline. cbn beta. rewrite split_strip.
  apply Forall_fmap_ext_1. eapply Forall_impl; [exact Hline|].
  intros id_str Hid. cbn beta in Hid |- *.
  unfold DecodeLimited.decode_id, decode_id, int_of_str_limited.
  rewrite decide_False; [done|]. destruct Hid; lia.
Qed.


End Limit.
End DecodeLimitedProofs.

(** ** Word dictionary ranking *)

Module WordFrequencyProofs.
Import Py SortedFacts WordFrequency.

(** Text order: lexicographic on code points. *)
Inductive text_lt : str → str → Prop :=
| text_lt_prefix c b : text_lt [] (c :: b)
| text_lt_head x y a b : (ord x < ord y)%Z → text_lt (x :: a) (y :: b)
| text_lt_tail x a b : text_lt a b → text_lt (x :: a) (x :: b).

(** The ranking of the specification: frequency descending, then
    length descending, then text ascending. *)
Definition ranks_before (x y : str * Z) : Prop :=
  (x.2 > y.2)%Z
  ∨ (x.2 = y.2 ∧ (length x.1 > length y.1
                  ∨ (length x.1 = length y.1 ∧ text_lt x.1 y.1))).

Lemma ord_inj x y : ord x = ord y → x = y.
Proof.
  unfold ord. intros H%(inj Z.of_N).
  rewrite <- (ascii_N_embedding x), <- (ascii_N_embedding y). by rewrite H.
Qed.

Lemma str_ltb_text_lt a b : str_ltb a b = true ↔ text_lt a b.
Proof.
  revert b. induction a as [|x a IH]; intros [|y b]; simpl.
  - split; [done|inversion 1].
  - split; [constructor|done].
  - split; [done|inversion 1].
  - destruct (ord x <? ord y)%Z eqn:Hxy.
    { split; [|done]. intros _. apply text_lt_head. lia. }
    destruct (ord y <? ord x)%Z eqn:Hyx.
    { split; [done|]. inversion 1; subst; lia. }
    assert (x = y) as -> by (apply ord_inj; lia).
    rewrite IH. split; [by constructor|].
    inversion 1; subst; [lia|done].
Qed.

Lemma str_ltb_irrefl a : str_ltb a a = false.
Proof.
  induction a as [|x a IH]; [done|]. simpl.
  by rewrite Z.ltb_irrefl.
Qed.

Lemma str_ltb_asym a b : str_ltb a b = true → str_ltb b a = false.
Proof.
  revert b. induction a as [|x a IH]; intros [|y b]; simpl; try done.
  destruct (ord x <? ord y)%Z eqn:Hxy, (ord y <? ord x)%Z eqn:Hyx;
    try done; try lia. apply IH.
Qed.

Lemma str_ltb_total a b : a ≠ b → str_ltb a b = true ∨ str_ltb b a = true.
Proof.
  revert b. induction a as [|x a IH]; intros [|y b] Hne; simpl;
    [done|by left|by right|].
  destruct (ord x <? ord y)%Z eqn:Hxy; [by left|].
  destruct (ord y <? ord x)%Z eqn:Hyx; [by right|].
  assert (x = y) as -> by (apply ord_inj; lia).
  apply IH. congruence.
Qed.

Lemma str_ltb_negtrans a b c :
  str_ltb a b = false → str_ltb b c = false → str_ltb a c = false.
Proof.
  revert b c. induction a as [|x a IH]; intros [|y b] [|z c]; simpl;
    try done.
  destruct (ord x <? ord y)%Z eqn:Hxy; [done|].
  destruct (ord y <? ord z)%Z eqn:Hyz; [done|].
  destruct (ord y <? ord x)%Z eqn:Hyx.
  { intros _ _. assert ((ord x <? ord z)%Z = false) as -> by lia.
    destruct (ord z <? ord y)%Z; by assert ((ord z <? ord x)%Z = true)
      as -> by lia. }
  assert (x = y) as -> by (apply ord_inj; lia).
  rewrite Hyz. destruct (ord z <? ord y)%Z; [done|]. apply IH.
Qed.

Lemma key_ltb_asym k1 k2 : key_ltb k1 k2 = true → key_ltb k2 k1 = false.
Proof.
  destruct k1 as [[f1 l1] w1], k2 as [[f2 l2] w2]. unfold key_ltb.
  repeat case_bool_decide; try lia; try congruence.
  apply str_ltb_asym.
Qed.

Lemma key_ltb_negtrans k1 k2 k3 :
  key_ltb k1 k2 = false → key_ltb k2 k3 = false → key_ltb k1 k3 = false.
Proof.
  destruct k1 as [[f1 l1] w1], k2 as [[f2 l2] w2], k3 as [[f3 l3] w3].
  unfold key_ltb.
  repeat case_bool_decide; try lia; try congruence.
  apply str_ltb_negtrans.
Qed.

(** The sort key orders the entries as the ranking says. *)
Lemma key_ltb_ranks_before x y :
  key_ltb (sort_key x) (sort_key y) = true ↔ ranks_before x y.
Proof.
  destruct x as [w1 f1], y as [w2 f2].
  unfold key_ltb, sort_key, ranks_before. cbn [fst snd].
  rewrite <- str_ltb_text_lt.
  repeat case_bool_decide; try lia.
  split; [intros ->; right; split; [lia|right; split; [lia|done]]|].
  intros [?|[_ [?|[_ ?]]]]; [lia|lia|done].
Qed.

Lemma ranks_before_total x y :
  x.1 ≠ y.1 → ranks_before x y ∨ ranks_before y x.
Proof.
  intros Hne. rewrite <- !key_ltb_ranks_before.
  destruct x as [w1 f1], y as [w2 f2]. unfold key_ltb, sort_key.
  cbn [fst snd] in *.
  repeat case_bool_decide; try lia. by apply str_ltb_total.
Qed.

Lemma ranks_before_asym x y : ranks_before x y → ¬ ranks_before y x.
Proof.
  rewrite <- !key_ltb_ranks_before. intros H%key_ltb_asym. congruence.
Qed.

Lemma StronglySorted_distinct {A B} (R : relation A) (f : A → B) l :
  StronglySorted R l → NoDup (f <$> l) →
  StronglySorted (λ x y, R x y ∧ f x ≠ f y) l.
Proof.
  induction 1 as [|x l Hl IH Hx]; [constructor|].
  rewrite fmap_cons. intros [Hnotin Hnd]%NoDup_cons.
  constructor; [by apply IH|].
  apply Forall_forall. intros y Hy. split.
  - by apply (proj1 (Forall_forall _ _) Hx).
  - intros Heq. apply Hnotin. rewrite Heq. by apply list_elem_of_fmap_2.
Qed.

Lemma sorted_words_ranked frequency_dict :
  StronglySorted ranks_before (sorted_words frequency_dict).
Proof.
  unfold sorted_words.
  apply (StronglySorted_weaken
           (λ x y, not_after sort_key key_ltb x y ∧ x.1 ≠ y.1)).
  - intros x y [Hxy Hne]. unfold not_after in Hxy.
    destruct (ranks_before_total x y Hne) as [|Hyx]; [done|].
    apply key_ltb_ranks_before in Hyx. congruence.
  - apply (StronglySorted_distinct (not_after sort_key key_ltb) fst).
    + apply (sorted_sorted sort_key key_ltb key_ltb_asym key_ltb_negtrans).
    + rewrite sorted_perm. apply NoDup_fst_map_to_list.
Qed.

Lemma rows_from_lookup ws : ∀ first i word count,
  ws !! i = Some (word, count) →
  rows_from first ws !! i
  = Some {| rank := first + Z.of_nat i; shown_word := shown word;
            word_length := Z.of_nat (length word); frequency := count |}.
Proof.
  induction ws as [|[w f] ws IH]; intros first i word count Hi; [done|].
  destruct i as [|i]; cbn [rows_from].
  - injection Hi as -> ->. simpl. by rewrite Z.add_0_r.
  - simpl in Hi. simpl lookup. rewrite (IH _ _ _ _ Hi).
    do 2 f_equal. lia.
Qed.

Lemma rows_from_length ws : ∀ first, length (rows_from first ws) = length ws.
Proof.
  induction ws as [|[w f] ws IH]; intros first; [done|].
  cbn [rows_from length]. by rewrite IH.
Qed.

(** C9. The rows of the word dictionary are the counted tokens, each
    once, ordered by frequency descending, then token length
    descending, then token text ascending; two distinct tokens are never
    tied; the rows carry the ranks 1, 2, 3, ... in that order. *)
Theorem C9_word_ranking (frequency_dict : gmap str Z) :
  let ranked := sorted_words frequency_dict in
  ranked ≡ₚ map_to_list frequency_dict
  ∧ StronglySorted ranks_before ranked
  ∧ (∀ x y, x.1 ≠ y.1 → ranks_before x y ∨ ranks_before y x)
  ∧ (∀ x y, ranks_before x y → ¬ ranks_before y x)
  ∧ length (save_word_frequency_dict frequency_dict) = length ranked
  ∧ ∀ i word count, ranked !! i = Some (word, count) →
      save_word_frequency_dict frequency_dict !! i
      = Some {| rank := 1 + Z.of_nat i; shown_word := shown word;
                word_length := Z.of_nat (length word); frequency := count |}.
Proof.
  intros ranked. split_and!.
  - apply sorted_perm.
  - apply sorted_words_ranked.
  - apply ranks_before_total.
  - apply ranks_before_asym.
  - apply rows_from_length.
  - intros i word count. apply rows_from_lookup.
Qed.
End WordFrequencyProofs.

(** ** Longest substring of a prefix group *)

Module SubstringDictProofs.
Import Py SubstringDict.

(** [s] is, among the elements of [scanned] with grouping key [key], the
    first one of greatest length. *)
Definition first_longest (scanned : list str) (key s : str) : Prop :=
  ∃ before after,
    scanned = before ++ s :: after
    ∧ group_key s = key
    ∧ (∀ s', s' ∈ before → group_key s' = key → length s' < length s)
    ∧ (∀ s', s' ∈ after → group_key s' = key → length s' ≤ length s).

(** What [longest_substrings] holds once [scanned] was visited. *)
Definition holds_longest (scanned : list str) (longest : gmap str str)
    : Prop :=
  ∀ key, match longest !! key with
         | Some s => first_longest scanned key s
         | None => ∀ s, s ∈ scanned → group_key s ≠ key
         end.

Lemma holds_longest_empty : holds_longest [] ∅.
Proof. intros key. rewrite lookup_empty. by intros s ?%elem_of_nil. Qed.

Lemma first_longest_bound scanned key s s' :
  first_longest scanned key s → s' ∈ scanned → group_key s' = key →
  length s' ≤ length s.
Proof.
  intros (before & after & -> & _ & Hb & Ha).
  rewrite elem_of_app, elem_of_cons. intros [Hin|[->|Hin]] Hkey.
  - apply Nat.lt_le_incl. by apply Hb.
  - done.
  - by apply Ha.
Qed.

Lemma first_longest_snoc scanned key s x :
  first_longest scanned key s →
  (group_key x = key → length x ≤ length s) →
  first_longest (scanned ++ [x]) key s.
Proof.
  intros (before & after & -> & Hkey & Hb & Ha) Hx.
  exists before, (after ++ [x]). split_and!; [|done|done|].
  - by rewrite <- app_assoc.
  - intros s'. rewrite elem_of_app, list_elem_of_singleton.
    intros [Hin| ->]; [by apply Ha|done].
Qed.

Lemma update_holds scanned t x :
  holds_longest scanned (longest_substrings t) →
  holds_longest (scanned ++ [x]) (longest_substrings (update t x)).
Proof.
  intros Hinv key. unfold update. cbn [longest_substrings].
  pose proof (Hinv (group_key x)) as Hx. pose proof (Hinv key) as Hk.
  destruct (decide (group_key x = key)) as [Heq|Hne].
  - subst key. destruct (longest_substrings t !! group_key x) as [held|] eqn:Hh.
    + case_decide as Hlen.
      * rewrite lookup_insert_eq. exists scanned, [].
        split_and!; [done|done| |by intros ? ?%elem_of_nil].
        intros s' Hin Hkey.
        pose proof (first_longest_bound _ _ _ _ Hx Hin Hkey). lia.
      * rewrite Hh. apply first_longest_snoc; [done|]. lia.
    + rewrite lookup_insert_eq. exists scanned, [].
      split_and!; [done|done| |by intros ? ?%elem_of_nil].
      intros s' Hin Hkey. by destruct (Hx s' Hin).
  - assert (Hsame : ∀ m : gmap str str,
              <[group_key x := x]> m !! key = m !! key).
    { intros m. by rewrite lookup_insert_ne. }
    assert (Hgoal : match longest_substrings t !! key with
                    | Some s => first_longest (scanned ++ [x]) key s
                    | None => ∀ s, s ∈ scanned ++ [x] → group_key s ≠ key
                    end).
    { destruct (longest_substrings t !! key) as [s|].
      - by apply first_longest_snoc.
      - intros s. rewrite elem_of_app, list_elem_of_singleton.
        intros [Hin| ->]; [by apply Hk|done]. }
    destruct (longest_substrings t !! group_key x) as [held|];
      [case_decide|]; by rewrite ?Hsame.
Qed.

Lemma foldl_update_holds xs : ∀ scanned t,
  holds_longest scanned (longest_substrings t) →
  holds_longest (scanned ++ xs) (longest_substrings (foldl update t xs)).
Proof.
  induction xs as [|x xs IH]; intros scanned t Hinv.
  { by rewrite app_nil_r. }
  cbn [foldl]. replace (scanned ++ x :: xs) with ((scanned ++ [x]) ++ xs)
    by (by rewrite <- app_assoc).
  by apply IH, update_holds.
Qed.

Section Scan.
Variable iter : gset str → list str.

(** The substrings in the order in which the loops visit them. *)
Fixpoint scanned_from (max_lines : Z) (lines : list str) (line_count : Z)
    : list str :=
  match lines with
  | [] => []
  | line :: rest =>
      if (line_count >=? max_lines)%Z then []
      else match strip line with
           | [] => scanned_from max_lines rest (line_count + 1)
           | cleaned_line =>
               iter (extract_substrings cleaned_line 3 50)
               ++ scanned_from max_lines rest (line_count + 1)
           end
  end.

Definition scanned (file : str) (max_lines : Z) : list str :=
  scanned_from max_lines (file_lines file) 0.

Lemma scan_lines_foldl max_lines lines : ∀ line_count t,
  scan_lines iter max_lines lines line_count t
  = foldl update t (scanned_from max_lines lines line_count).
Proof.
  induction lines as [|line lines IH]; intros line_count t; [done|].
  cbn [scan_lines scanned_from].
  destruct (line_count >=? max_lines)%Z; [done|].
  destruct (strip line) as [|ch cleaned]; [apply IH|].
  by rewrite foldl_app, IH.
Qed.

End Scan.
End SubstringDictProofs.

(** ** The scenarios of the specification *)

Module Scenarios.
Import Py EditDistance LineClusterer LineClustererProofs.
Import DictCoder DictCoderProofs DecodeLimitedProofs.

(** A text file with the given lines. *)
Definition file_of (lines : list string) : str :=
  concat ((λ l, lit l ++ [LF]) <$> lines).

(** A dictionary file that lists [dog], then [cat], with ranks 7 and 3. *)
Definition example_rows : list string :=
  ["7      | dog    | 3      | 3         | 75.00%";
   "3      | cat    | 3      | 1         | 25.00%"].

Definition example_dict : str :=
  file_of ("Rank   | Word   | Length | Frequency | Percentage"
           :: "------------------------------------------------"
           :: example_rows).

Definition example_coder : coder :=
  {| word_to_id := <[lit "dog" := 0%Z]> (<[lit "cat" := 1%Z]> ∅);
     id_to_word := <[0%Z := lit "dog"]> (<[1%Z := lit "cat"]> ∅);
     next_id := 2 |}.

Definition example_text : str := file_of ["Dog runs"].

(** The coder once [example_text] is encoded, and the tokens presented
    for an id until then. *)
Definition example_final : coder := assign example_coder unk.

Definition example_log : list str := [lit "dog"; lit "cat"; unk].





(** A decoder for the bytes of a log without multi-byte characters. *)
Definition example_decode (byte_line : str) : str := byte_line.

(** Scenario 2: [dog] gets id 0 and [cat] id 1, whatever their ranks. *)
Example scenario_2 : load_dictionary init example_dict = Some example_coder.
Proof. vm_compute. reflexivity. Qed.

(** Scenario 3: ["Dog runs"] is written ["0 2"], [unk] gets id 2, and
    ["0 2"] is read back as ["dog unk"]. *)
Example scenario_3 :
  encode example_coder example_text
  = Some (assign example_coder unk, file_of ["0 2"])
  ∧ word_to_id (assign example_coder unk) !! unk = Some 2%Z
  ∧ decode (load_mappings init (save_mappings (assign example_coder unk)))
      (file_of ["0 2"])
    = file_of ["dog unk"].
Proof. split_and!; vm_compute; reflexivity. Qed.

(** Scenario 4: a batch whose distances to the first line are 0, 1, 3
    keeps its order. *)
Example scenario_4 :
  levenshtein_distance (lit "abc") <$> [lit "abc"; lit "abd"; lit "xyz"]
  = [Some 0%Z; Some 1%Z; Some 3%Z]
  ∧ process_batch [lit "abc"; lit "abd"; lit "xyz"] 0 []
    = Some [lit "abc"; lit "abd"; lit "xyz"].
Proof. split; vm_compute; reflexivity. Qed.

(** Scenario 1: [dog] three times and [cat] once rank [dog] first. *)
Example scenario_1 :
  WordFrequency.save_word_frequency_dict
    (WordFrequency.build_word_frequency_dict (file_of ["dog cat"; "dog dog"]) 2)
  = [ {| WordFrequency.rank := 1; WordFrequency.shown_word := lit "dog";
         WordFrequency.word_length := 3; WordFrequency.frequency := 3 |};
      {| WordFrequency.rank := 2; WordFrequency.shown_word := lit "cat";
         WordFrequency.word_length := 3; WordFrequency.frequency := 1 |} ].
Proof. vm_compute. reflexivity. Qed.

(** A batch size below one makes every kept line a batch of its own:
    the loop flushes as soon as the batch is at least that long. *)
Example batch_size_zero :
  read_and_process_in_batches example_decode (file_of ["xyz"; "abc"]) [] 0
  = Some [lit "xyz"; lit "abc"].
Proof. vm_compute. reflexivity. Qed.

(** [distance("", "abc") == 3]. *)
Example distance_from_empty :
  levenshtein_distance (lit "") (lit "abc") = Some 3%Z.
Proof. vm_compute. reflexivity. Qed.

(** The round trip of scenario 3 as an instance of C1. *)
Lemma C1_round_trip_witness :
  load_dictionary init example_dict = Some example_coder
  ∧ ∃ c1 encoded,
      encode example_coder example_text = Some (c1, encoded)
      ∧ decoded_lines (load_mappings init (save_mappings c1)) encoded
        = (λ line,
             (λ token, if decide (is_Some (word_to_id example_coder !! token))
                       then token else unk)
             <$> split (lower line))
          <$> file_lines example_text
      ∧ (λ line, split (strip line))
        <$> file_lines (decode (load_mappings init (save_mappings c1)) encoded)
        = decoded_lines (load_mappings init (save_mappings c1)) encoded.
Proof.
  split; [vm_compute; reflexivity|].
  apply (C1_round_trip example_dict example_text example_coder).
  vm_compute. reflexivity.
Defined.

(** The coder of scenario 3 is reachable, with the log [dog], [cat],
    [unk]. *)
Lemma C2_vocabulary_bijective_witness :
  reachable example_log example_final
  ∧ (∀ t i, word_to_id example_final !! t = Some i →
            id_to_word example_final !! i = Some t)
  ∧ (∀ t1 t2 i, word_to_id example_final !! t1 = Some i →
                word_to_id example_final !! t2 = Some i → t1 = t2)
  ∧ (∀ t i, word_to_id example_final !! t = Some i
            ↔ (0 ≤ i)%Z
              ∧ first_occurrences example_log !! Z.to_nat i = Some t)
  ∧ next_id example_final
    = Z.of_nat (length (first_occurrences example_log)).
Proof.
  assert (Hreach : reachable example_log example_final).
  { apply (reach_encode [lit "dog"; lit "cat"] example_coder example_text
             example_final (file_of ["0 2"])).
    - apply (reach_load [] init example_dict example_coder reach_init).
      vm_compute. reflexivity.
    - vm_compute. reflexivity. }
  split; [exact Hreach|].
  exact (C2_vocabulary_bijective example_log example_final Hreach).
Defined.









(** A numeral of 4301 digits is an integer, and [int] refuses it under
    the default limit: its token is decoded to [unk] even by a mapping
    that holds the integer. *)
Example numeral_beyond_limit :
  ∃ word_id,
    int_of_str (replicate 4301 "7"%char) = Some word_id
    ∧ int_of_str_limited default_max_str_digits (replicate 4301 "7"%char)
      = None
    ∧ DecodeLimited.decode_id default_max_str_digits
        {| word_to_id := ∅; id_to_word := {[word_id := lit "dog"]};
           next_id := 0 |}
        (replicate 4301 "7"%char)
      = unk.
Proof. eexists. split_and!; vm_compute; reflexivity. Qed.
End Scenarios.

(** * Further properties *)
(** ** Edit distance: a metric, bounded by the lengths *)

Module EditDistanceMetric.
Import EditDistance EditScripts EditDistanceProofs.

Section Metric.
Context {A : Type} `{EqDecision A}.

Lemma edits_compose n m (a b c : list A) :
  edits n a b → edits m b c → edits (n + m) a c.
Proof.
  induction 1 as [a|n a a' b H1 _ IH]; intros Hbc; [done|].
  simpl. econstructor; [exact H1|]. by apply IH.
Qed.

Lemma lev_triangle (a b c : list A) : lev a c ≤ lev a b + lev b c.
Proof. apply lev_least, (edits_compose _ _ a b c); apply lev_reached. Qed.

Lemma lev_zero (a b : list A) : lev a b = 0 ↔ a = b.
Proof.
  split; [|intros ->; apply lev_refl].
  intros H0. pose proof (lev_reached a b) as He. rewrite H0 in He.
  by inversion He.
Qed.

Lemma edit1_length (a b : list A) :
  edit1 a b → length a ≤ S (length b) ∧ length b ≤ S (length a).
Proof.
  intros [u c v|u c v|u c d v]; rewrite !length_app; simpl; lia.
Qed.

Lemma edits_length n (a b : list A) :
  edits n a b → length a ≤ length b + n ∧ length b ≤ length a + n.
Proof.
  induction 1 as [a|n a a' b H1%edit1_length _ IH]; lia.
Qed.

Lemma lev_upper (a : list A) : ∀ b, lev a b ≤ length a `max` length b.
Proof.
  induction a as [|x a IH]; intros b; [simpl; lia|].
  destruct b as [|y b]; [rewrite lev_nil_r; lia|].
  rewrite lev_cons. specialize (IH b). cbn [length].
  destruct (decide (x = y)); lia.
Qed.
End Metric.

(** X1. The distance between two strings is zero exactly when they are
    equal, and the distance from [a] to [c] is at most the distance from
    [a] to [b] plus the distance from [b] to [c]. *)
Theorem levenshtein_distance_metric (a b c : str) :
  (levenshtein_distance a b = Some 0%Z ↔ a = b)
  ∧ ∃ ab bc ac,
      levenshtein_distance a b = Some ab
      ∧ levenshtein_distance b c = Some bc
      ∧ levenshtein_distance a c = Some ac
      ∧ (ac ≤ ab + bc)%Z.
Proof.
  rewrite !levenshtein_distance_lev. split.
  - rewrite <- lev_zero. split; [intros [= H0]; lia|by intros ->].
  - eexists _, _, _. split_and!; [done..|].
    pose proof (lev_triangle a b c). lia.
Qed.

(** X2. The distance is at least the difference of the lengths and at most
    the greater length. *)
Theorem levenshtein_distance_bounds (a b : str) :
  ∃ d, levenshtein_distance a b = Some d
       ∧ (Z.abs (Z.of_nat (length a) - Z.of_nat (length b)) ≤ d)%Z
       ∧ (d ≤ Z.of_nat (length a) `max` Z.of_nat (length b))%Z.
Proof.
  rewrite levenshtein_distance_lev. eexists. split; [done|].
  pose proof (edits_length _ _ _ (lev_reached a b)).
  pose proof (lev_upper a b). lia.
Qed.
End EditDistanceMetric.

(** ** LineClusterer: cleaning, the reference line, degenerate batch sizes *)

Module LineClustererMore.
Import Py PyFacts EditDistance EditScripts EditDistanceProofs SortedFacts.
Import LineClusterer LineClustererProofs.

Lemma clean_char_printable c :
  printable (if printable c then c else "?"%char) = true.
Proof. destruct (printable c) eqn:Hc; [done|by vm_compute]. Qed.

(** X3. Cleaning keeps the length of a line, leaves only printable
    characters, and changes nothing in a line that is already clean. *)
Theorem clean_line_printable (line : str) :
  length (clean_line line) = length line
  ∧ Forall (λ c, printable c = true) (clean_line line)
  ∧ clean_line (clean_line line) = clean_line line
  ∧ (Forall (λ c, printable c = true) line → clean_line line = line).
Proof.
  unfold clean_line. split_and!.
  - by rewrite length_fmap.
  - apply Forall_fmap, Forall_true. intros c. apply clean_char_printable.
  - rewrite <- list_fmap_compose. apply list_fmap_ext. intros _ c _. simpl.
    by rewrite clean_char_printable.
  - intros Hline. rewrite <- (list_fmap_id line) at 2.
    apply Forall_fmap_ext_1. eapply Forall_impl; [exact Hline|].
    by intros c ->.
Qed.

(** A string without whitespace at either end. *)
Definition trimmed (s : str) : Prop :=
  ∀ c, head s = Some c ∨ last s = Some c → isspace c = false.

Lemma lstrip_head s c : head (lstrip s) = Some c → isspace c = false.
Proof.
  induction s as [|d s IH]; [done|]. simpl.
  destruct (isspace d) eqn:Hd; [done|]. simpl. by intros [= <-].
Qed.

Lemma last_rev_head (s : str) : last (rev s) = head s.
Proof.
  destruct s as [|c s]; [done|]. simpl. by rewrite last_snoc.
Qed.

Lemma head_rev_last (s : str) : head (rev s) = last s.
Proof. by rewrite <- (rev_involutive s) at 2; rewrite last_rev_head. Qed.

Lemma rstrip_last s c : last (rstrip s) = Some c → isspace c = false.
Proof. unfold rstrip. rewrite last_rev_head. apply lstrip_head. Qed.

Lemma head_app_l (s t : str) c : head s = Some c → head (s ++ t) = Some c.
Proof. by destruct s. Qed.

Lemma strip_trimmed s : trimmed (strip s).
Proof.
  intros c [Hc|Hc]; [|by apply rstrip_last in Hc].
  unfold strip in Hc. destruct (rstrip_split (lstrip s)) as (t & Hs & _).
  apply (lstrip_head s). rewrite Hs. by apply head_app_l.
Qed.

Lemma strip_Forall (P : ascii → Prop) s : Forall P s → Forall P (strip s).
Proof.
  destruct (strip_split s) as (t1 & t2 & Hs & _ & _). rewrite Hs at 1.
  rewrite !Forall_app. tauto.
Qed.

Lemma sorted_min_first {B K} (key : B → K) (ltb : K → K → bool) x l :
  (∀ y, y ∈ l → ltb (key y) (key x) = false) →
  sorted key ltb (x :: l) = x :: sorted key ltb l.
Proof.
  intros Hmin. cbn [sorted foldr]. fold (sorted key ltb l).
  pose proof (sorted_perm key ltb l) as Hperm.
  destruct (sorted key ltb l) as [|y l'] eqn:Hl; [done|].
  cbn [insert_stable]. rewrite Hmin; [done|].
  rewrite <- Hperm. left.
Qed.

(** X4. The reference line of a batch is written first, followed by the
    other lines of the batch in some order. *)
Theorem process_batch_reference_first (base_line : str) (rest : list str)
    (batch_num : Z) (output_file : list str) :
  ∃ others,
    process_batch (base_line :: rest) batch_num output_file
    = Some (if (batch_num >? 0)%Z then output_file ++ base_line :: others
            else base_line :: others)
    ∧ others ≡ₚ rest.
Proof.
  exists (sorted (distance_to base_line) Z.ltb rest).
  rewrite process_batch_writes by done. unfold write, sorted_batch.
  rewrite sorted_min_first.
  - split; [done|apply sorted_perm].
  - intros y _. unfold distance_to. rewrite lev_refl. apply Z.ltb_ge. lia.
Qed.

Section Batches.
Variable decode : str → str.

Lemma process_batch_total (batch : list str) batch_num output_file :
  process_batch batch batch_num output_file
  = Some (match batch with
          | [] => output_file
          | _ => write batch_num output_file (sorted_batch batch)
          end).
Proof.
  destruct batch as [|l batch]; [done|]. by rewrite process_batch_writes.
Qed.

Lemma last_flush (batch : list str) batch_num output_file :
  match batch with
  | [] => Some output_file
  | _ => process_batch batch batch_num output_file
  end = process_batch batch batch_num output_file.
Proof. by destruct batch. Qed.

Lemma written_elem batch batch_num output_file line :
  line ∈ match batch with
         | [] => output_file
         | _ => write batch_num output_file (sorted_batch batch)
         end →
  line ∈ output_file ∨ line ∈ batch.
Proof.
  destruct batch as [|l batch]; [by left|].
  unfold write. destruct (batch_num >? 0)%Z.
  - rewrite elem_of_app, sorted_batch_perm. tauto.
  - rewrite sorted_batch_perm. tauto.
Qed.

Lemma read_loop_elem (batch_size : Z) (byte_lines : list str) :
  ∀ batch batch_num output_file,
    ∃ batch' batch_num' output_file',
      read_loop decode batch_size byte_lines batch batch_num output_file
      = Some (batch', batch_num', output_file')
      ∧ ∀ line, line ∈ batch' ∨ line ∈ output_file' →
          line ∈ batch ∨ line ∈ output_file
          ∨ line ∈ kept_lines decode byte_lines.
Proof.
  induction byte_lines as [|byte_line byte_lines IH];
    intros batch batch_num output_file.
  { eexists _, _, _. split; [done|]. tauto. }
  cbn [read_loop]. fold (cleaned_line decode byte_line).
  set (batch1 := match cleaned_line decode byte_line with
                 | [] => batch
                 | _ => batch ++ [cleaned_line decode byte_line]
                 end).
  assert (Hb1 : ∀ line, line ∈ batch1 →
            line ∈ batch ∨ line ∈ kept_lines decode (byte_line :: byte_lines)).
  { intros line. unfold kept_lines. rewrite fmap_cons, filter_cons. subst batch1.
    destruct (cleaned_line decode byte_line) as [|ch cl]; [by left|].
    rewrite decide_True by done.
    rewrite elem_of_app, list_elem_of_singleton, elem_of_cons. tauto. }
  assert (Hk : ∀ line, line ∈ kept_lines decode byte_lines →
            line ∈ kept_lines decode (byte_line :: byte_lines)).
  { intros line. unfold kept_lines. rewrite fmap_cons, filter_cons.
    case_decide; [rewrite elem_of_cons|]; tauto. }
  destruct (Z.of_nat (length batch1) >=? batch_size)%Z.
  - rewrite process_batch_total. cbn [mbind option_bind].
    edestruct IH as (b' & n' & o' & -> & Hin).
    eexists _, _, _. split; [done|]. intros line Hline.
    destruct (Hin line Hline) as [Hl|[Hl|Hl]].
    + by apply elem_of_nil in Hl.
    + apply written_elem in Hl as [Hl|Hl]; [tauto|].
      destruct (Hb1 line Hl); tauto.
    + auto.
  - edestruct IH as (b' & n' & o' & -> & Hin).
    eexists _, _, _. split; [done|]. intros line Hline.
    destruct (Hin line Hline) as [Hl|[Hl|Hl]]; [|tauto|auto].
    destruct (Hb1 line Hl); tauto.
Qed.

Lemma kept_line_clean line byte_lines :
  line ∈ kept_lines decode byte_lines →
  line ≠ [] ∧ Forall (λ c, printable c = true) line ∧ trimmed line.
Proof.
  unfold kept_lines. rewrite list_elem_of_filter, list_elem_of_fmap.
  intros [Hne (byte_line & -> & _)]. split_and!; [done| |].
  - apply strip_Forall. unfold clean_line.
    apply Forall_fmap, Forall_true. intros c. apply clean_char_printable.
  - apply strip_trimmed.
Qed.

(** X5. Whatever the batch size, clustering started on a new destination
    ends, and every line it writes is a cleaned input line: not empty,
    made of printable characters, without whitespace at either end. *)
Theorem written_lines_clean (input_file : str) (batch_size : Z) :
  ∃ written,
    read_and_process_in_batches decode input_file [] batch_size = Some written
    ∧ Forall (λ line, line ≠ []
                      ∧ Forall (λ c, printable c = true) line
                      ∧ trimmed line) written.
Proof.
  unfold read_and_process_in_batches.
  destruct (read_loop_elem batch_size (file_lines_binary input_file) [] 0 [])
    as (batch & n & out & -> & Hin).
  cbn [mbind option_bind]. rewrite last_flush, process_batch_total.
  eexists. split; [done|]. apply Forall_forall. intros line Hline.
  apply written_elem in Hline.
  destruct (Hin line) as [Hl|[Hl|Hl]]; [tauto| | |];
    try (by apply elem_of_nil in Hl).
  by eapply kept_line_clean.
Qed.

(** With a batch size below one every line of the input ends a batch. *)
Lemma read_loop_flush (batch_size : Z) (byte_lines : list str) :
  (batch_size ≤ 0)%Z →
  ∀ batch_num output_file,
    (0 < batch_num)%Z →
    read_loop decode batch_size byte_lines [] batch_num output_file
    = Some ([], (batch_num + Z.of_nat (length byte_lines))%Z,
            output_file ++ kept_lines decode byte_lines).
Proof.
  intros HB. induction byte_lines as [|byte_line byte_lines IH];
    intros batch_num output_file Hn.
  { simpl. by rewrite Z.add_0_r, app_nil_r. }
  cbn [read_loop]. fold (cleaned_line decode byte_line).
  unfold kept_lines. rewrite fmap_cons, filter_cons.
  fold (kept_lines decode byte_lines).
  destruct (cleaned_line decode byte_line) as [|ch cl] eqn:Hcl.
  - rewrite decide_False by (by intros []).
    assert ((Z.of_nat (length (@nil str)) >=? batch_size)%Z = true) as ->
      by (apply Z.geb_le; simpl; lia).
    rewrite process_batch_total. cbn [mbind option_bind].
    rewrite IH by lia. do 3 f_equal. cbn [length]. lia.
  - rewrite decide_True by done.
    assert ((Z.of_nat (length ([] ++ [ch :: cl])) >=? batch_size)%Z = true)
      as -> by (apply Z.geb_le; simpl; lia).
    rewrite process_batch_total. cbn [mbind option_bind app].
    unfold write, sorted_batch.
    assert ((batch_num >? 0)%Z = true) as -> by lia.
    rewrite IH by lia. cbn [sorted foldr insert_stable length].
    rewrite <- app_assoc. do 3 f_equal. lia.
Qed.

(** X6. With a batch size below one nothing is reordered: the kept lines
    are written in input order. They replace the old content of the
    destination only if the first input line is kept; otherwise they are
    appended to it. *)
Theorem batch_size_below_one (input_file : str) (old_output : list str)
    (batch_size : Z) :
  (batch_size ≤ 0)%Z →
  let byte_lines := file_lines_binary input_file in
  read_and_process_in_batches decode input_file old_output batch_size
  = Some (match cleaned_line decode <$> head byte_lines with
          | Some (_ :: _) => kept_lines decode byte_lines
          | _ => old_output ++ kept_lines decode byte_lines
          end).
Proof.
  intros HB byte_lines. unfold read_and_process_in_batches.
  fold byte_lines. destruct byte_lines as [|byte_line rest].
  { simpl. by rewrite app_nil_r. }
  cbn [read_loop head fmap option_fmap option_map].
  fold (cleaned_line decode byte_line).
  unfold kept_lines. rewrite fmap_cons, filter_cons.
  fold (kept_lines decode rest).
  destruct (cleaned_line decode byte_line) as [|ch cl] eqn:Hcl.
  - rewrite decide_False by (by intros []).
    assert ((Z.of_nat (length (@nil str)) >=? batch_size)%Z = true) as ->
      by (apply Z.geb_le; simpl; lia).
    rewrite process_batch_total. cbn [mbind option_bind].
    rewrite read_loop_flush by lia. done.
  - rewrite decide_True by done.
    assert ((Z.of_nat (length ([] ++ [ch :: cl])) >=? batch_size)%Z = true)
      as -> by (apply Z.geb_le; simpl; lia).
    rewrite process_batch_total. cbn [mbind option_bind app].
    rewrite read_loop_flush by lia. cbn [mbind option_bind]. done.
Qed.
End Batches.
End LineClustererMore.

(** ** Word tokenizer and word counts *)

Module WordFrequencyMore.
Import Py PyFacts WordFrequency.



(** The number of occurrences of [w] in [l]. *)
Definition occurrences (w : str) (l : list str) : nat :=
  length (filter (λ x, x = w) l).

(** The dictionary [m] counts the elements of [l]. *)
Definition counts (m : gmap str Z) (l : list str) : Prop :=
  ∀ w, m !! w = if decide (w ∈ l) then Some (Z.of_nat (occurrences w l))
                else None.

Lemma occurrences_snoc w l x :
  occurrences w (l ++ [x])
  = occurrences w l + (if decide (x = w) then 1 else 0).
Proof.
  unfold occurrences. rewrite filter_app, length_app, filter_cons.
  by case_decide.
Qed.

Lemma occurrences_absent w l : w ∉ l → occurrences w l = 0.
Proof.
  unfold occurrences. induction l as [|x l IH]; [done|].
  intros [Hx Hl]%not_elem_of_cons. rewrite filter_cons.
  rewrite decide_False by done. by apply IH.
Qed.

Lemma occurrences_present w l : w ∈ l → 0 < occurrences w l.
Proof.
  unfold occurrences. induction l as [|x l IH]; [by intros ?%elem_of_nil|].
  rewrite filter_cons. case_decide; [simpl; lia|].
  intros [?|?]%elem_of_cons; [congruence|by apply IH].
Qed.

Lemma count_word_counts m l word :
  counts m l → counts (count_word m word) (l ++ [lower word]).
Proof.
  intros Hm w. unfold count_word. rewrite occurrences_snoc.
  specialize (Hm w).
  destruct (decide (lower word = w)) as [->|Hne].
  - rewrite lookup_insert_eq, Hm.
    rewrite (decide_True (P := _ ∈ _ ++ _))
      by (rewrite elem_of_app, list_elem_of_singleton; tauto).
    case_decide as Hin; simpl; f_equal; [lia|].
    by rewrite occurrences_absent.
  - rewrite lookup_insert_ne by done. rewrite Hm, Nat.add_0_r.
    apply decide_ext. rewrite elem_of_app, list_elem_of_singleton.
    split; [tauto|]. intros [?|?]; [done|congruence].
Qed.

Lemma count_words_counts words : ∀ m l,
  counts m l → counts (foldl count_word m words) (l ++ (lower <$> words)).
Proof.
  induction words as [|word words IH]; intros m l Hm.
  { simpl. by rewrite app_nil_r. }
  cbn [foldl]. rewrite fmap_cons.
  change (l ++ lower word :: (lower <$> words))
    with (l ++ [lower word] ++ (lower <$> words)).
  rewrite app_assoc. by apply IH, count_word_counts.
Qed.

(** The normalized words of the lines that are read: the first
    [max_lines] lines of the file, blank or not. *)
Definition sampled_words (file : str) (max_lines : Z) : list str :=
  concat ((λ line, lower <$> extract_words (strip line))
          <$> take (Z.to_nat max_lines) (file_lines file)).

Lemma take_more {B} (n : Z) (x : B) (l : list B) :
  (0 < n)%Z → take (Z.to_nat n) (x :: l) = x :: take (Z.to_nat (n - 1)) l.
Proof.
  intros Hn. replace (Z.to_nat n) with (S (Z.to_nat (n - 1))) by lia. done.
Qed.

Lemma count_lines_counts max_lines lines : ∀ line_count m l,
  counts m l →
  counts (count_lines max_lines lines line_count m)
    (l ++ concat ((λ line, lower <$> extract_words (strip line))
                  <$> take (Z.to_nat (max_lines - line_count)) lines)).
Proof.
  induction lines as [|line lines IH]; intros line_count m l Hm.
  { rewrite take_nil. simpl. by rewrite app_nil_r. }
  cbn [count_lines]. destruct (line_count >=? max_lines)%Z eqn:Hbreak.
  - apply Z.geb_le in Hbreak.
    replace (Z.to_nat (max_lines - line_count)) with 0 by lia.
    simpl. by rewrite app_nil_r.
  - rewrite Z.geb_leb in Hbreak. apply Z.leb_gt in Hbreak.
    rewrite take_more by lia. rewrite fmap_cons. cbn [concat].
    replace (max_lines - line_count - 1)%Z
      with (max_lines - (line_count + 1))%Z by lia.
    rewrite app_assoc.
    destruct (strip line) as [|ch cl] eqn:Hstrip.
    + change (extract_words []) with (@nil str). simpl.
      rewrite app_nil_r. by apply IH.
    + by apply IH, count_words_counts.
Qed.

Lemma counts_empty : counts ∅ [].
Proof. intros w. rewrite lookup_empty. by rewrite decide_False by apply not_elem_of_nil. Qed.

Lemma lookup_counts (file : str) (max_lines : Z) (w : str) :
  build_word_frequency_dict file max_lines !! w
  = if decide (w ∈ sampled_words file max_lines)
    then Some (Z.of_nat (occurrences w (sampled_words file max_lines)))
    else None.
Proof.
  pose proof (count_lines_counts max_lines (file_lines file) 0 ∅ []
                counts_empty w) as H.
  rewrite Z.sub_0_r in H. exact H.
Qed.

(** X8. The dictionary built from a file counts the normalized words of
    its first [max_lines] lines (blank lines are among the lines counted
    towards [max_lines]): a word that occurs has its number of
    occurrences, which is at least one, and no other word has an entry. *)
Theorem build_word_frequency_dict_counts (file : str) (max_lines : Z)
    (w : str) :
  build_word_frequency_dict file max_lines !! w
  = (if decide (w ∈ sampled_words file max_lines)
     then Some (Z.of_nat (occurrences w (sampled_words file max_lines)))
     else None)
  ∧ (w ∈ sampled_words file max_lines →
     0 < occurrences w (sampled_words file max_lines)).
Proof. split; [apply lookup_counts|apply occurrences_present]. Qed.

Lemma elem_of_concat {B} (x : B) (ls : list (list B)) :
  x ∈ concat ls ↔ ∃ l, x ∈ l ∧ l ∈ ls.
Proof.
  induction ls as [|l0 ls IH]; simpl.
  - split; [by intros ?%elem_of_nil|by intros (? & _ & ?%elem_of_nil)].
  - rewrite elem_of_app, IH. split.
    + intros [?|(l & ? & ?)]; [exists l0|exists l]; split; try done;
        [left|by right].
    + intros (l & Hx & [->|?]%elem_of_cons); [by left|right; eauto].
Qed.

Lemma lower_char_lower_char c : lower_char (lower_char c) = lower_char c.
Proof. by destruct c as [[] [] [] [] [] [] [] []]. Qed.

Lemma lower_lower s : lower (lower s) = lower s.
Proof.
  induction s as [|c s IH]; [done|]. simpl.
  rewrite lower_char_lower_char. f_equal. apply IH.
Qed.

Lemma lower_word_char c : word_char c = true → word_char (lower_char c) = true.
Proof. destruct c as [[] [] [] [] [] [] [] []]; by vm_compute. Qed.

(** X9. Every word of the dictionary built from a file is the lower-case
    form of a word that [extract_words] finds in one of the first
    [max_lines] lines, stripped. The characters of a [str] are below
    256, where [lower] maps a character to one character; there the word
    is, in lower case too, a non-empty string of characters of the class
    of the pattern, and lower case leaves it as it is. *)
Theorem build_word_frequency_dict_keys (file : str) (max_lines : Z)
    (w : str) (n : Z) :
  build_word_frequency_dict file max_lines !! w = Some n →
  (∃ line word,
     line ∈ take (Z.to_nat max_lines) (file_lines file)
     ∧ word ∈ extract_words (strip line)
     ∧ w = lower word)
  ∧ w ≠ [] ∧ Forall (λ c, word_char c = true) w ∧ lower w = w.
Proof.
  rewrite lookup_counts.
  case_decide as Hin; [intros _|done].
  unfold sampled_words in Hin.
  apply elem_of_concat in Hin as (ws & Hw & Hws).
  apply list_elem_of_fmap in Hws as (line & -> & Hline).
  apply list_elem_of_fmap in Hw as (word & -> & Hword).
  split; [by exists line, word|].
  pose proof (runs_Forall word_char (strip line)) as Hruns.
  apply (proj1 (Forall_forall _ _) Hruns) in Hword as [Hne Hchars].
  split_and!.
  - by destruct word.
  - clear Hne. induction Hchars as [|c word Hc _ IH]; constructor;
      [by apply lower_word_char|done].
  - apply lower_lower.
Qed.
End WordFrequencyMore.

(** ** From the written dictionary file to the loaded vocabulary *)

Module DictionaryPipeline.
Import Py PyFacts WordFrequency WordFrequencyFile DictCoder DictCoderProofs.

(** The word that [load_dictionary] reads back for a word of the
    dictionary: words of more than 30 characters lose all but their
    first 27. *)
Definition read_back (word : str) : str :=
  if decide (30 < length word) then take 27 word else word.

Definition wordy (w : str) : Prop :=
  w ≠ [] ∧ Forall (λ c, word_char c = true) w.

(** The characters of a row before the percentage. *)
Definition field_char (c : ascii) : Prop :=
  word_char c = true ∨ id_char c ∨ c = " "%char ∨ c = "."%char.

Lemma word_char_facts c :
  word_char c = true →
  isspace c = false ∧ c ≠ "|"%char ∧ c ≠ "."%char ∧ c ≠ LF ∧ c ≠ CR.
Proof.
  destruct c as [[] [] [] [] [] [] [] []]; vm_compute; intros H;
    try discriminate H; by split_and!.
Qed.

Lemma field_char_facts c : field_char c → c ≠ "|"%char ∧ c ≠ LF ∧ c ≠ CR.
Proof.
  intros [Hc|[Hc|[->| ->]]]; [|  |by vm_compute|by vm_compute].
  - apply word_char_facts in Hc. tauto.
  - pose proof (id_char_plain c Hc) as (_ & ? & ?).
    split_and!; [|done|done]. destruct Hc as [Hc| ->]; [|done].
    intros ->. by vm_compute in Hc.
Qed.

Lemma space_field : field_char " "%char.
Proof. right; right; by left. Qed.

Lemma ljust_field width s :
  Forall field_char s → Forall field_char (ljust width s).
Proof.
  intros Hs. unfold ljust. apply Forall_app. split; [done|].
  apply Forall_replicate. right; right; by left.
Qed.

Lemma str_of_int_field n : Forall field_char (str_of_int n).
Proof.
  eapply Forall_impl; [apply str_of_int_id_chars|]. intros c Hc.
  right; by left.
Qed.

Lemma shown_field w : wordy w → Forall field_char (shown w).
Proof.
  intros [_ Hw]. assert (Forall field_char w) as Hf.
  { eapply Forall_impl; [exact Hw|]. intros c Hc. by left. }
  unfold shown. case_decide; [|done].
  apply Forall_app. split; [by apply Forall_take|].
  repeat constructor; right; right; by right.
Qed.

Lemma lstrip_gap t s :
  Forall (λ c, isspace c = true) t → lstrip (t ++ s) = lstrip s.
Proof. induction 1 as [|c t Hc _ IH]; [done|]. simpl. by rewrite Hc. Qed.

Lemma strip_padded t1 w t2 :
  word_like w →
  Forall (λ c, isspace c = true) t1 → Forall (λ c, isspace c = true) t2 →
  strip (t1 ++ w ++ t2) = w.
Proof.
  intros Hw H1 H2. unfold strip. rewrite lstrip_gap by done.
  pose proof (strip_word_like w Hw) as Hstrip. unfold strip in Hstrip.
  destruct Hw as [Hne Hw]. destruct w as [|c w]; [done|].
  apply Forall_cons in Hw as [Hc Hw].
  cbn [app]. rewrite lstrip_id by done.
  rewrite lstrip_id in Hstrip by done.
  unfold rstrip in *. change (c :: w ++ t2) with ((c :: w) ++ t2).
  rewrite rev_app_distr, lstrip_gap; [done|].
  by rewrite <- reverse_eq_rev, Forall_reverse.
Qed.

Lemma wordy_word_like w : wordy w → word_like w.
Proof.
  intros [Hne Hw]. split; [done|]. eapply Forall_impl; [exact Hw|].
  intros c Hc. by apply word_char_facts in Hc as [? _].
Qed.

Lemma shown_word_like w : wordy w → word_like (shown w).
Proof.
  intros Hw. pose proof (wordy_word_like w Hw) as [Hne Hsp].
  unfold shown. case_decide as Hlen; [|done]. split.
  - intros Hnil. apply (f_equal length) in Hnil. rewrite length_app in Hnil.
    simpl in Hnil. lia.
  - apply Forall_app. split; [by apply Forall_take|by repeat constructor].
Qed.

(** Removing the ellipsis from the shown word. *)
Lemma shown_read_back w :
  wordy w →
  (if endswith (shown w) (lit "...") then drop_last 3 (shown w) else shown w)
  = read_back w.
Proof.
  intros [Hne Hw]. unfold shown, read_back, endswith, drop_last.
  case_decide as Hlen.
  - rewrite length_app, length_take. cbn [lit list_ascii_of_string length].
    replace (27 `min` length w + 3 - 3) with (length (take 27 w))
      by (rewrite length_take; lia).
    rewrite drop_app_length, bool_decide_eq_true_2 by done.
    by rewrite take_app_length.
  - rewrite bool_decide_eq_false_2; [done|]. intros Hdrop.
    assert (Hin : "."%char ∈ w).
    { apply (subseteq_drop (length w - length (lit "...")) w).
      rewrite Hdrop. left. }
    apply (proj1 (Forall_forall _ _) Hw), word_char_facts in Hin. tauto.
Qed.

Section Text.
Variable percentage_text : Z → Z → str.
Hypothesis percentage_text_line :
  ∀ count total, Forall (λ c, c ≠ LF ∧ c ≠ CR) (percentage_text count total).

(** A row without its newline. *)
Definition row_body (total rank : Z) (word : str) (count : Z) : str :=
  ljust 6 (str_of_int rank) ++ lit " | "
  ++ ljust 30 (shown word) ++ lit " | "
  ++ ljust 6 (str_of_int (Z.of_nat (length word))) ++ lit " | "
  ++ ljust 9 (str_of_int count) ++ lit " | "
  ++ percentage_text count total ++ lit "%".

Lemma row_text_body total rank word count :
  row_text percentage_text total rank word count
  = terminated (row_body total rank word count).
Proof.
  unfold row_text, row_body, terminated. by rewrite <- !app_assoc.
Qed.

Fixpoint row_bodies (total rank : Z) (sorted_words : list (str * Z))
    : list str :=
  match sorted_words with
  | [] => []
  | (word, count) :: rest =>
      row_body total rank word count :: row_bodies total (rank + 1)%Z rest
  end.

Lemma rows_text_bodies total ws : ∀ rank,
  rows_text percentage_text total rank ws
  = concat (terminated <$> row_bodies total rank ws).
Proof.
  induction ws as [|[w n] ws IH]; intros rank; [done|].
  cbn [rows_text row_bodies]. rewrite fmap_cons. cbn [concat].
  by rewrite row_text_body, IH.
Qed.

Lemma row_body_line total rank word count :
  wordy word →
  Forall (λ c, c ≠ LF ∧ c ≠ CR) (row_body total rank word count).
Proof.
  intros Hw.
  assert (Hf : ∀ s, Forall field_char s → Forall (λ c, c ≠ LF ∧ c ≠ CR) s).
  { intros s Hs. eapply Forall_impl; [exact Hs|].
    intros c Hc. apply field_char_facts in Hc. tauto. }
  assert (Hbar : Forall (λ c, c ≠ LF ∧ c ≠ CR) (lit " | "))
    by (by repeat constructor).
  unfold row_body. rewrite !Forall_app. split_and!; try done.
  - apply Hf, ljust_field, str_of_int_field.
  - by apply Hf, ljust_field, shown_field.
  - apply Hf, ljust_field, str_of_int_field.
  - apply Hf, ljust_field, str_of_int_field.
  - by repeat constructor.
Qed.

(** The word read from a written row. *)
Lemma row_word_written total rank word count :
  wordy word →
  row_word (row_text percentage_text total rank word count)
  = Some (read_back word).
Proof.
  intros Hw.
  set (tail := ljust 6 (str_of_int (Z.of_nat (length word))) ++ lit " | "
               ++ ljust 9 (str_of_int count) ++ lit " | "
               ++ percentage_text count total ++ lit "%" ++ [LF]).
  assert (Hshape :
    row_text percentage_text total rank word count
    = (ljust 6 (str_of_int rank) ++ [" "%char])
      ++ "|"%char
         :: ((" "%char :: ljust 30 (shown word) ++ [" "%char])
             ++ "|"%char :: " "%char :: tail)).
  { unfold row_text. fold tail.
    change (lit " | ") with [" "%char; "|"%char; " "%char].
    cbn [app]. rewrite <- !app_assoc. reflexivity. }
  rewrite Hshape.
  assert (Hspace : ∀ s, Forall field_char s →
            Forall field_char (s ++ [" "%char])).
  { intros s Hs. apply Forall_app. split; [done|].
    apply Forall_singleton, space_field. }
  assert (Hbar : ∀ s, Forall field_char s → "|"%char ∉ s).
  { intros s Hs Hin.
    apply (proj1 (Forall_forall _ _) Hs), field_char_facts in Hin. tauto. }
  rewrite row_word_fields
    by (apply Hbar, Hspace, ljust_field, str_of_int_field).
  rewrite rstrip_app_stop by done.
  rewrite split_on_field.
  2: { apply Hbar. constructor; [apply space_field|].
       by apply Hspace, ljust_field, shown_field. }
  cbn [head fmap option_fmap option_map]. f_equal.
  unfold ljust. rewrite <- app_assoc.
  change (" "%char :: shown word ++ ?x) with ([" "%char] ++ shown word ++ x).
  rewrite strip_padded.
  - by apply shown_read_back.
  - by apply shown_word_like.
  - by repeat constructor.
  - apply Forall_app. split; [by apply Forall_replicate|by repeat constructor].
Qed.

Lemma row_bodies_lines total ws : ∀ rank,
  Forall wordy ws.*1 →
  Forall (Forall (λ c, c ≠ LF ∧ c ≠ CR)) (row_bodies total rank ws).
Proof.
  induction ws as [|[w n] ws IH]; intros rank Hws; [constructor|].
  rewrite fmap_cons in Hws. apply Forall_cons in Hws as [Hw Hws].
  cbn [row_bodies]. constructor; [by apply row_body_line|by apply IH].
Qed.

Lemma row_bodies_words total ws : ∀ rank,
  Forall wordy ws.*1 →
  omap row_word (terminated <$> row_bodies total rank ws)
  = read_back <$> ws.*1.
Proof.
  induction ws as [|[w n] ws IH]; intros rank Hws; [done|].
  rewrite fmap_cons in Hws. apply Forall_cons in Hws as [Hw Hws].
  cbn [row_bodies]. rewrite !fmap_cons. cbn [omap list_omap].
  rewrite <- row_text_body, row_word_written by done.
  cbn [fst]. f_equal. by apply IH.
Qed.

Lemma written_file_lines frequency_dict :
  Forall wordy (sorted_words frequency_dict).*1 →
  ∃ header separator,
    file_lines (written_file percentage_text frequency_dict)
    = header :: separator
      :: (terminated
          <$> row_bodies
                (foldr Z.add 0%Z (sorted_words frequency_dict).*2) 1
                (sorted_words frequency_dict)).
Proof.
  intros Hws. unfold written_file. rewrite rows_text_bodies.
  set (bodies := row_bodies _ 1 _).
  set (header := ljust 6 (lit "Rank") ++ lit " | " ++ ljust 30 (lit "Word")
                 ++ lit " | Length | Frequency | Percentage").
  exists (terminated header), (terminated (replicate 100 "-"%char)).
  assert (Hhdr : (ljust 6 (lit "Rank") ++ lit " | " ++ ljust 30 (lit "Word")
                  ++ lit " | Length | Frequency | Percentage" ++ [LF])
                 = terminated header).
  { unfold header, terminated. by rewrite <- !app_assoc. }
  rewrite Hhdr.
  change (terminated header ++ (replicate 100 "-"%char ++ [LF])
          ++ concat (terminated <$> bodies))
    with (concat (terminated
                  <$> header :: replicate 100 "-"%char :: bodies)).
  rewrite file_lines_written; [done|].
  constructor; [|constructor].
  - apply (bool_decide_unpack _). by vm_compute.
  - by apply Forall_replicate.
  - by apply row_bodies_lines.
Qed.

Lemma first_occurrences_distinct (l : list str) :
  NoDup l → first_occurrences l = l.
Proof.
  induction l as [|x l IH] using rev_ind; [done|].
  intros [Hl [Hx _]]%NoDup_app. rewrite first_occurrences_snoc, IH by done.
  rewrite decide_False; [done|]. intros Hin. apply (Hx x Hin). left.
Qed.

(** X10. A dictionary of words (non-empty strings of word characters)
    written by [save_word_frequency_dict] is loaded by [load_dictionary]:
    the words are read back in rank order, those of more than 30
    characters reduced to their first 27; and if no word has more than
    30 characters, the word of rank [i + 1] gets the id [i]. *)
Theorem written_dictionary_loads (frequency_dict : gmap str Z) :
  (∀ w n, frequency_dict !! w = Some n →
          w ≠ [] ∧ Forall (λ c, word_char c = true) w) →
  ∃ c,
    load_dictionary init (written_file percentage_text frequency_dict)
    = Some c
    ∧ (∀ t i, word_to_id c !! t = Some i
              ↔ (0 ≤ i)%Z
                ∧ first_occurrences
                    (read_back <$> (sorted_words frequency_dict).*1)
                  !! Z.to_nat i = Some t)
    ∧ ((∀ w n, frequency_dict !! w = Some n → length w ≤ 30) →
       ∀ i w n, sorted_words frequency_dict !! i = Some (w, n) →
         word_to_id c !! w = Some (Z.of_nat i)
         ∧ id_to_word c !! Z.of_nat i = Some w).
Proof.
  intros Hkeys.
  assert (Hitems : ∀ x, x ∈ sorted_words frequency_dict →
            frequency_dict !! x.1 = Some x.2).
  { intros [w n]. unfold sorted_words.
    rewrite SortedFacts.sorted_perm. apply elem_of_map_to_list. }
  assert (Hws : Forall wordy (sorted_words frequency_dict).*1).
  { apply Forall_fmap, Forall_forall. intros x Hx. simpl.
    apply (Hkeys _ _ (Hitems x Hx)). }
  destruct (written_file_lines frequency_dict Hws)
    as (header & separator & Hlines).
  assert (Hload : load_dictionary init
                    (written_file percentage_text frequency_dict)
                  = Some (foldl load_row init
                            (terminated
                             <$> row_bodies
                                   (foldr Z.add 0%Z
                                      (sorted_words frequency_dict).*2) 1
                                   (sorted_words frequency_dict)))).
  { unfold load_dictionary. by rewrite Hlines. }
  pose proof (load_dictionary_assigned init [] _ _ assigned_init Hload) as Ha.
  unfold dict_words in Ha. rewrite Hlines in Ha.
  change (drop 2 (header :: separator :: ?l)) with l in Ha.
  rewrite app_nil_l, row_bodies_words in Ha by done.
  eexists. split; [exact Hload|]. split; [apply Ha|].
  intros Hshort i w n Hi.
  assert (Hread : read_back <$> (sorted_words frequency_dict).*1
                  = (sorted_words frequency_dict).*1).
  { rewrite <- (list_fmap_id (sorted_words frequency_dict).*1) at 2.
    apply Forall_fmap_ext_1, Forall_fmap, Forall_forall. intros x Hx. simpl.
    unfold read_back. rewrite decide_False; [done|].
    pose proof (Hshort _ _ (Hitems x Hx)). lia. }
  rewrite Hread, first_occurrences_distinct in Ha.
  2: { unfold sorted_words. rewrite SortedFacts.sorted_perm.
       apply NoDup_fst_map_to_list. }
  destruct Ha as (_ & _ & Hw & Hid).
  assert ((sorted_words frequency_dict).*1 !! i = Some w) as Hi'
    by (by rewrite list_lookup_fmap, Hi).
  split; [apply Hw|apply Hid]; rewrite Nat2Z.id; split; (lia || done).
Qed.
End Text.
End DictionaryPipeline.

(** ** Substrings of a line and the entries of the substring dictionary *)

Module SubstringDictMore.
Import Py SubstringDict SubstringDictProofs WordFrequencyMore.

Lemma elem_of_range a b x : x ∈ range a b ↔ a ≤ x < b.
Proof. unfold range. rewrite elem_of_seq. lia. Qed.

Lemma elem_of_add_all {B} (f : B → str) (l : list B) : ∀ (X : gset str) s,
  s ∈ foldl (λ X e, {[ f e ]} ∪ X) X l ↔ s ∈ X ∨ ∃ e, e ∈ l ∧ s = f e.
Proof.
  induction l as [|e0 l IH]; intros X s; cbn [foldl].
  - split; [by left|]. intros [?|(e & ?%elem_of_nil & _)]; done.
  - rewrite IH, elem_of_union, elem_of_singleton. split.
    + intros [[->|?]|(e & ? & ?)]; [right; exists e0|by left|right; exists e];
        split; try done; [left|by right].
    + intros [?|(e & [->|?]%elem_of_cons & ->)]; [tauto|tauto|].
      right. by exists e.
Qed.

Lemma elem_of_add_nested {B C} (f : B → C → str) (inner : B → list C)
    (l : list B) : ∀ (X : gset str) s,
  s ∈ foldl (λ X b, foldl (λ X e, {[ f b e ]} ∪ X) X (inner b)) X l
  ↔ s ∈ X ∨ ∃ b e, b ∈ l ∧ e ∈ inner b ∧ s = f b e.
Proof.
  induction l as [|b0 l IH]; intros X s; cbn [foldl].
  - split; [by left|]. intros [?|(b & e & ?%elem_of_nil & _)]; done.
  - rewrite IH, elem_of_add_all. split.
    + intros [[?|(e & ? & ?)]|(b & e & ? & ? & ?)].
      * by left.
      * right. exists b0, e. split_and!; [left|done|done].
      * right. exists b, e. split_and!; [by right|done|done].
    + intros [?|(b & e & [->|?]%elem_of_cons & ? & ->)].
      * tauto.
      * left. right. by exists e.
      * right. by exists b, e.
Qed.

Lemma slice_length (line : str) start end_ :
  start ≤ end_ ≤ length line → length (slice line start end_) = end_ - start.
Proof.
  intros H. unfold slice. rewrite length_take, length_drop. lia.
Qed.

Lemma elem_of_extract_substrings (line : str) (min_length max_length : nat)
    (s : str) :
  s ∈ extract_substrings line min_length max_length
  ↔ ∃ start end_,
      start < length line
      ∧ start + min_length ≤ end_
      ∧ end_ ≤ start + max_length ∧ end_ ≤ length line
      ∧ s = slice line start end_.
Proof.
  unfold extract_substrings.
  rewrite (elem_of_add_nested (λ start end_, slice line start end_)
             (λ start, range (start + min_length)
                         ((start + max_length) `min` length line + 1))).
  split.
  - intros [?%elem_of_empty|(start & end_ & Hs%elem_of_range
                             & He%elem_of_range & ->)]; [done|].
    exists start, end_. split_and!; (lia || done).
  - intros (start & end_ & ? & ? & ? & ? & ->). right.
    exists start, end_. rewrite !elem_of_range. split_and!; (lia || done).
Qed.

Lemma extract_substrings_length (line : str) (min_length max_length : nat)
    (s : str) :
  s ∈ extract_substrings line min_length max_length →
  min_length ≤ length s ≤ max_length.
Proof.
  intros (start & end_ & ? & ? & ? & ? & ->)%elem_of_extract_substrings.
  rewrite slice_length by lia. lia.
Qed.

(** X11. The substrings extracted from a line are exactly its contiguous
    pieces [line[start:end]] of at least [min_length] and at most
    [max_length] characters; their lengths lie between these bounds, and
    a line shorter than [min_length] has none. *)
Theorem extract_substrings_spec (line : str) (min_length max_length : nat)
    (s : str) :
  (s ∈ extract_substrings line min_length max_length
   ↔ ∃ start end_,
       start < length line
       ∧ start + min_length ≤ end_
       ∧ end_ ≤ start + max_length ∧ end_ ≤ length line
       ∧ s = slice line start end_)
  ∧ (s ∈ extract_substrings line min_length max_length →
     min_length ≤ length s ≤ max_length)
  ∧ (length line < min_length →
     extract_substrings line min_length max_length = ∅).
Proof.
  split_and!;
    [apply elem_of_extract_substrings|apply extract_substrings_length|].
  intros Hshort. apply set_eq. intros x.
  split; [|by intros ?%elem_of_empty].
  intros (start & end_ & ? & ? & ? & ? & _)%elem_of_extract_substrings. lia.
Qed.

(** What [substring_stats] holds once [scanned] was visited: for every
    substring seen, how often it was seen and its length. *)
Definition holds_stats (scanned : list str) (m : gmap str stats) : Prop :=
  ∀ s, m !! s = if decide (s ∈ scanned)
                then Some {| count := Z.of_nat (occurrences s scanned);
                             length_ := Z.of_nat (length s) |}
                else None.

Lemma update_stats scanned t x :
  holds_stats scanned (substring_stats t) →
  holds_stats (scanned ++ [x]) (substring_stats (update t x)).
Proof.
  intros Hinv s. unfold update. cbn [substring_stats].
  rewrite occurrences_snoc. pose proof (Hinv s) as Hs.
  destruct (decide (x = s)) as [->|Hne].
  - rewrite lookup_insert_eq, Hs.
    rewrite (decide_True (P := _ ∈ _ ++ _))
      by (rewrite elem_of_app, list_elem_of_singleton; tauto).
    case_decide as Hin; cbn [default from_option id count length_].
    + assert ((Z.of_nat (length s) >? Z.of_nat (length s))%Z = false) as ->
        by lia.
      cbn [count length_]. do 2 f_equal. lia.
    + rewrite occurrences_absent by done.
      change (length_ inhabitant) with 0%Z.
      change (count inhabitant) with 0%Z.
      destruct (Z.gtb_spec (Z.of_nat (length s)) 0); cbn [count length_].
      all: f_equal; f_equal; try done.
      change (length_ inhabitant) with 0%Z. lia.
  - rewrite lookup_insert_ne by done. rewrite Hs, Nat.add_0_r.
    apply decide_ext. rewrite elem_of_app, list_elem_of_singleton.
    split; [tauto|]. intros [?|?]; [done|congruence].
Qed.

Lemma foldl_update_stats xs : ∀ scanned t,
  holds_stats scanned (substring_stats t) →
  holds_stats (scanned ++ xs) (substring_stats (foldl update t xs)).
Proof.
  induction xs as [|x xs IH]; intros scanned t Hinv.
  { by rewrite app_nil_r. }
  cbn [foldl]. replace (scanned ++ x :: xs) with ((scanned ++ [x]) ++ xs)
    by (by rewrite <- app_assoc).
  by apply IH, update_stats.
Qed.

Lemma holds_stats_empty : holds_stats [] ∅.
Proof.
  intros s. rewrite lookup_empty.
  by rewrite decide_False by apply not_elem_of_nil.
Qed.

Section Scan.
Variable iter : gset str → list str.

Lemma entry_stats (file : str) (max_lines : Z) (key : str) (entry : final) :
  build_enhanced_dict iter file max_lines !! key = Some entry →
  substring entry ∈ scanned iter file max_lines
  ∧ group_key (substring entry) = key
  ∧ length_of entry = Z.of_nat (length (substring entry))
  ∧ frequency entry
    = Z.of_nat (occurrences (substring entry) (scanned iter file max_lines)).
Proof.
  unfold build_enhanced_dict. rewrite lookup_fmap, scan_lines_foldl.
  fold (scanned iter file max_lines).
  set (t0 := {| substring_stats := ∅; longest_substrings := ∅ |}).
  pose proof (foldl_update_holds (scanned iter file max_lines) [] t0
                holds_longest_empty key) as Hlong.
  pose proof (foldl_update_stats (scanned iter file max_lines) [] t0
                holds_stats_empty) as Hstats.
  cbn [app] in Hlong, Hstats.
  destruct (longest_substrings _ !! key) as [s|]; [|done].
  intros [= <-]. cbn [substring length_of frequency].
  destruct Hlong as (before & after & Hscan & Hkey & _).
  assert (Hin : s ∈ scanned iter file max_lines).
  { rewrite Hscan, elem_of_app, elem_of_cons. tauto. }
  rewrite (Hstats s), decide_True by done.
  cbn [default from_option id count length_]. done.
Qed.

(** X12. An entry of the substring dictionary describes a substring that
    was scanned and has the entry's key as grouping key; its length field
    is the length of the substring and its frequency the number of times
    the substring was scanned, at least one. *)
Theorem build_enhanced_dict_entry (file : str) (max_lines : Z)
    (key : str) (entry : final) :
  build_enhanced_dict iter file max_lines !! key = Some entry →
  substring entry ∈ scanned iter file max_lines
  ∧ group_key (substring entry) = key
  ∧ length_of entry = Z.of_nat (length (substring entry))
  ∧ frequency entry
    = Z.of_nat (occurrences (substring entry) (scanned iter file max_lines))
  ∧ (1 ≤ frequency entry)%Z.
Proof.
  intros (Hin & Hkey & Hlen & Hfreq)%entry_stats.
  pose proof (occurrences_present _ _ Hin).
  split_and!; (done || lia).
Qed.

Lemma elem_of_scanned_from max_lines lines : ∀ line_count s,
  s ∈ scanned_from iter max_lines lines line_count →
  ∃ line, line ∈ lines ∧ s ∈ iter (extract_substrings (strip line) 3 50).
Proof.
  induction lines as [|line lines IH]; intros line_count s;
    cbn [scanned_from]; [by intros ?%elem_of_nil|].
  destruct (line_count >=? max_lines)%Z; [by intros ?%elem_of_nil|].
  destruct (strip line) as [|ch cl] eqn:Hstrip.
  - intros (l & ? & ?)%IH. exists l. split; [by right|done].
  - rewrite elem_of_app. intros [Hs|(l & ? & ?)%IH].
    + exists line. rewrite Hstrip. split; [left|done].
    + exists l. split; [by right|done].
Qed.

(** The loop visits only elements of the set. *)
Hypothesis iter_elem : ∀ (X : gset str) s, s ∈ iter X → s ∈ X.

(** X13. The substring of an entry is a piece of between 3 and 50
    characters of a trimmed line of the file, and the key of the entry is
    its first two characters. *)
Theorem build_enhanced_dict_bounds (file : str) (max_lines : Z)
    (key : str) (entry : final) :
  build_enhanced_dict iter file max_lines !! key = Some entry →
  3 ≤ length (substring entry) ≤ 50
  ∧ key = take 2 (substring entry)
  ∧ ∃ line start end_,
      line ∈ file_lines file
      ∧ substring entry = slice (strip line) start end_.
Proof.
  intros (Hin & Hkey & _)%entry_stats.
  apply elem_of_scanned_from in Hin as (line & Hline & Hs%iter_elem).
  pose proof (extract_substrings_length _ _ _ _ Hs) as Hlen.
  split_and!; [lia|lia| |].
  - rewrite <- Hkey. unfold group_key. rewrite decide_True by lia. done.
  - apply elem_of_extract_substrings in Hs
      as (start & end_ & _ & _ & _ & _ & ->).
    eauto.
Qed.
End Scan.
End SubstringDictMore.

(** ** The rows of the substring dictionary file *)

Module EnhancedDictFileProofs.
Import Py SortedFacts SubstringDict EnhancedDictFile.



End EnhancedDictFileProofs.

(** ** Vocabulary and codec: reloading, letter case, encoding again *)

Module DictCoderMore.
Import Py PyFacts DictCoder DictCoderProofs WordFrequencyMore.

(** X15. Saving the mappings of a reachable coder and loading them, into
    any coder, gives the coder back, with its next id. *)
Theorem save_load_mappings (log : list str) (c c0 : coder) :
  reachable log c → load_mappings c0 (save_mappings c) = c.
Proof.
  intros Ha%reachable_assigned. pose proof (assigned_size _ _ Ha) as Hsize.
  destruct Ha as (_ & Hnext & _). destruct c as [w i n].
  unfold load_mappings, save_mappings. simpl in *.
  f_equal. lia.
Qed.

(** *** Letter case *)

Lemma lower_char_LF c : lower_char c = LF ↔ c = LF.
Proof.
  split; [|by intros ->].
  destruct c as [[] [] [] [] [] [] [] []]; vm_compute; congruence.
Qed.

Lemma lower_char_CR c : lower_char c = CR ↔ c = CR.
Proof.
  split; [|by intros ->].
  destruct c as [[] [] [] [] [] [] [] []]; vm_compute; congruence.
Qed.

Lemma universal_newlines_lower s :
  universal_newlines (lower s) = lower (universal_newlines s).
Proof.
  induction s as [|c s IH]; [done|].
  cbn [lower map universal_newlines]. fold (lower s).
  destruct (decide (c = CR)) as [->|Hc].
  - rewrite !decide_True by done.
    destruct s as [|d s]; [done|]. cbn [lower map]. fold (lower s).
    destruct (decide (d = LF)) as [->|Hd].
    + rewrite !decide_True by done. exact IH.
    + rewrite !decide_False by (by rewrite ?lower_char_LF).
      cbn [lower map]. f_equal. exact IH.
  - rewrite !decide_False by (by rewrite ?lower_char_CR).
    cbn [lower map]. f_equal. exact IH.
Qed.

Lemma lines_go_lower s : ∀ cur,
  lines_go (lower cur) (lower s) = lower <$> lines_go cur s.
Proof.
  induction s as [|c s IH]; intros cur.
  - simpl. destruct cur; [done|]. simpl. by rewrite lower_app, lower_rev.
  - cbn [lower map lines_go]. fold (lower s).
    destruct (decide (c = LF)) as [->|Hc].
    + rewrite !decide_True by done. rewrite fmap_cons, <- (IH []).
      f_equal. simpl. by rewrite lower_app, lower_rev.
    + rewrite !decide_False by (by rewrite ?lower_char_LF).
      apply (IH (c :: cur)).
Qed.

Lemma file_lines_lower s : file_lines (lower s) = lower <$> file_lines s.
Proof.
  unfold file_lines. rewrite universal_newlines_lower.
  apply (lines_go_lower _ []).
Qed.

Lemma line_words_lower line :
  line_words (lower line) = lower <$> line_words line.
Proof. unfold line_words. by rewrite strip_lower, split_lower. Qed.

Lemma encode_word_lower c word :
  encode_word c (lower word) = encode_word c word.
Proof. unfold encode_word. by rewrite lower_lower. Qed.

Lemma encode_words_lower words : ∀ c encoded_line,
  encode_words c (lower <$> words) encoded_line
  = encode_words c words encoded_line.
Proof.
  induction words as [|word words IH]; intros c encoded_line; [done|].
  rewrite fmap_cons. cbn [encode_words]. rewrite encode_word_lower.
  destruct (encode_word c word) as [[c' id_str]|]; [|done]. apply IH.
Qed.

Lemma encode_lines_lower lines : ∀ c out_f,
  encode_lines c (lower <$> lines) out_f = encode_lines c lines out_f.
Proof.
  induction lines as [|line lines IH]; intros c out_f; [done|].
  rewrite fmap_cons. cbn [encode_lines].
  fold (line_words (lower line)). fold (line_words line).
  rewrite line_words_lower, encode_words_lower.
  destruct (encode_words c (line_words line) []) as [[c' ids]|]; [|done].
  apply IH.
Qed.

(** X16. Encoding does not depend on letter case: a text and its
    lower-case form give the same ids and the same coder. *)
Theorem encode_case_insensitive (c : coder) (input_file : str) :
  encode c (lower input_file) = encode c input_file.
Proof. unfold encode. by rewrite file_lines_lower, encode_lines_lower. Qed.

(** *** Loading a dictionary again *)

Lemma load_row_keeps c line t i :
  word_to_id c !! t = Some i → word_to_id (load_row c line) !! t = Some i.
Proof.
  intros Ht. unfold load_row. destruct (row_word line) as [word|]; [|done].
  case_decide as Hw; [done|]. simpl. rewrite lookup_insert_ne; [done|].
  intros <-. apply Hw. eauto.
Qed.

Lemma load_rows_keep rows : ∀ c t i,
  word_to_id c !! t = Some i →
  word_to_id (foldl load_row c rows) !! t = Some i.
Proof.
  induction rows as [|line rows IH]; intros c t i Ht; [done|].
  cbn [foldl]. by apply IH, load_row_keeps.
Qed.

Lemma load_row_has c line word :
  row_word line = Some word → is_Some (word_to_id (load_row c line) !! word).
Proof.
  intros Hrow. unfold load_row. rewrite Hrow. case_decide as Hw; [done|].
  simpl. rewrite lookup_insert_eq. eauto.
Qed.

Lemma load_rows_have rows : ∀ c line word,
  line ∈ rows → row_word line = Some word →
  is_Some (word_to_id (foldl load_row c rows) !! word).
Proof.
  induction rows as [|l rows IH]; intros c line word Hin Hrow;
    [by apply elem_of_nil in Hin|].
  cbn [foldl]. apply elem_of_cons in Hin as [->|Hin].
  - destruct (load_row_has c l word Hrow) as [i Hi].
    exists i. by apply load_rows_keep.
  - by eapply IH.
Qed.

Lemma load_rows_known rows : ∀ c,
  (∀ line word, line ∈ rows → row_word line = Some word →
                is_Some (word_to_id c !! word)) →
  foldl load_row c rows = c.
Proof.
  induction rows as [|l rows IH]; intros c Hknown; [done|].
  cbn [foldl].
  assert (load_row c l = c) as ->.
  { unfold load_row. destruct (row_word l) as [word|] eqn:Hrow; [|done].
    rewrite decide_True; [done|]. apply (Hknown l); [left|done]. }
  apply IH. intros line word Hin. apply Hknown. by right.
Qed.

(** X17. Loading a dictionary file into a coder keeps the id of every
    word the coder holds, gives an id to every word of the rows, and
    loading the same file once more changes nothing. *)
Theorem load_dictionary_again (c c' : coder) (dict_file : str) :
  load_dictionary c dict_file = Some c' →
  (∀ t i, word_to_id c !! t = Some i → word_to_id c' !! t = Some i)
  ∧ (∀ word, word ∈ dict_words dict_file → is_Some (word_to_id c' !! word))
  ∧ load_dictionary c' dict_file = Some c'.
Proof.
  unfold load_dictionary, dict_words.
  destruct (file_lines dict_file) as [|header [|separator rows]]; [done..|].
  intros [= <-]. cbn [drop]. split_and!.
  - intros t i. apply load_rows_keep.
  - intros word (line & Hin & Hrow)%list_elem_of_omap.
    by eapply load_rows_have.
  - f_equal. apply load_rows_known. intros line word Hin Hrow.
    by eapply load_rows_have.
Qed.

(** *** Encoding the decoded text *)

Lemma Forall2_functional {A B} (R R' : A → B → Prop) l k k' :
  (∀ x y y', R x y → R' x y' → y = y') →
  Forall2 R l k → Forall2 R' l k' → k = k'.
Proof.
  intros Hfun H. revert k'. induction H as [|x y l k Hxy _ IH]; intros k' H'.
  - by inversion H'.
  - inversion H' as [|? y' ? k'' Hxy' Hrest]; subst.
    f_equal; [by eapply Hfun|by apply IH].
Qed.

Lemma target_lower c word : lower (target c word) = target c word.
Proof. unfold target. case_decide; [done|apply lower_lower]. Qed.

Lemma target_word_like c word line :
  word ∈ line_words line → word_like (target c word).
Proof.
  intros Hin. unfold target. case_decide; [split; [done|by repeat constructor]|].
  assert (lower word ∈ split (lower (strip line))) as Hl.
  { rewrite split_lower. apply list_elem_of_fmap. by exists word. }
  pose proof (split_word_like (lower (strip line))) as Hall.
  by apply (proj1 (Forall_forall _ _) Hall).
Qed.

Lemma target_known c t i :
  word_to_id c !! t = Some i → lower t = t → target c t = t.
Proof.
  intros Ht Hl. unfold target. rewrite decide_False; [done|].
  unfold oov. by rewrite Hl, Ht.
Qed.

Lemma after_run_known c words :
  Forall (λ t, is_Some (word_to_id c !! t) ∧ lower t = t) words →
  after_run c words = c.
Proof.
  intros Hknown. unfold after_run. rewrite decide_False; [done|].
  intros [_ (t & Hin & Hoov)%Exists_exists].
  apply (proj1 (Forall_forall _ _) Hknown) in Hin as [[i Hi] Hl].
  unfold oov in Hoov. rewrite Hl in Hoov. congruence.
Qed.

(** X18. The decoded text is a fixed point of the codec: from a reachable
    coder, encoding a text, decoding the ids with the saved and reloaded
    mappings and encoding the decoded text gives the same ids, and leaves
    the coder as the first encoding left it. *)
Theorem encode_decoded_again (log : list str) (c0 : coder) (input_file : str) :
  reachable log c0 →
  ∃ c1 encoded,
    encode c0 input_file = Some (c1, encoded)
    ∧ encode c1 (decode (load_mappings init (save_mappings c1)) encoded)
      = Some (c1, encoded).
Proof.
  intros Ha0%reachable_assigned.
  destruct (encode_run c0 input_file) as (idss & Hrun & Hids).
  pose proof (assigned_after_run c0 _ (input_words input_file) Ha0) as Ha1.
  set (c1 := after_run c0 (input_words input_file)) in *.
  set (tokss := (λ line, target c0 <$> line_words line)
                <$> file_lines input_file).
  exists c1, (concat (id_line <$> idss)). split; [exact Hrun|].
  assert (decoded_lines (load_mappings init (save_mappings c1))
            (concat (id_line <$> idss)) = tokss) as Hdec.
  { rewrite decoded_lines_map, file_lines_id_lines.
    rewrite <- list_fmap_compose. unfold tokss. apply Forall2_fmap_eq.
    apply Forall2_flip. eapply Forall2_impl; [exact Hids|].
    intros line ids Hline. cbn beta. unfold compose.
    rewrite split_id_line, <- !list_fmap_compose.
    symmetry. apply Forall2_fmap_eq.
    eapply Forall2_impl; [exact Hline|].
    intros word id Hid. cbn beta. unfold compose.
    rewrite decode_id_written.
    cbn [load_mappings save_mappings id_to_word fst snd].
    by rewrite (assigned_inverse _ _ _ _ Ha1 Hid). }
  assert (Forall (Forall word_like) tokss) as Hlike.
  { unfold tokss. apply Forall_fmap, Forall_true. intros line. simpl.
    apply Forall_fmap, Forall_forall. intros word Hin. simpl.
    by eapply target_word_like. }
  assert (Forall (λ t, is_Some (word_to_id c1 !! t) ∧ lower t = t)
            (concat tokss)) as Hknown.
  { apply Forall_concat. unfold tokss. apply Forall_fmap.
    apply Forall_forall. intros line Hline. simpl. apply Forall_fmap.
    destruct (proj1 (list_elem_of_lookup _ _) Hline) as [n Hn].
    destruct (Forall2_lookup_l _ _ _ _ _ Hids Hn) as (ids & _ & Hwords).
    clear -Hwords. induction Hwords as [|word id ws ids Hid _ IH];
      constructor; [|exact IH].
    simpl. split; [by exists id|apply target_lower]. }
  unfold decode. rewrite Hdec.
  set (text := concat ((λ decoded_line, join (lit " ") decoded_line ++ [LF])
                         <$> tokss)).
  pose proof (tokens_read_back tokss Hlike) as Hback. fold text in Hback.
  destruct (encode_run c1 text) as (idss' & Hrun' & Hids').
  assert (input_words text = concat tokss) as Hwords.
  { unfold input_words. by rewrite <- Hback. }
  rewrite Hwords, (after_run_known _ _ Hknown) in Hrun', Hids'.
  rewrite Hrun'. assert (idss' = idss) as ->; [|done].
  assert (Forall2
            (Forall2 (λ word id, word_to_id c1 !! target c1 word = Some id))
            tokss idss') as Htoks.
  { rewrite <- Hback. apply Forall2_fmap_l. exact Hids'. }
  unfold tokss in Htoks. apply (proj1 (Forall2_fmap_l _ _ _ _)) in Htoks.
  eapply Forall2_functional; [|exact Htoks|exact Hids].
  clear. intros line ids' ids H' H. unfold compose in H'.
  apply (proj1 (Forall2_fmap_l _ _ _ _)) in H'.
  eapply Forall2_functional; [|exact H'|exact H].
  clear. intros word id' id H' H. unfold compose in H'.
  rewrite (target_known c1 _ id H (target_lower _ _)) in H'. congruence.
Qed.
End DictCoderMore.

(** ** Further scenarios *)

Module MoreScenarios.
Import Py PyFacts LineClusterer LineClustererProofs LineClustererMore.
Import WordFrequency WordFrequencyMore WordFrequencyFile DictionaryPipeline.
Import SubstringDict SubstringDictProofs SubstringDictMore.
Import DictCoder DictCoderProofs DictCoderMore.
Import Scenarios.

(** A destination that holds one line, and a log of two. *)
Definition example_old_output : list str := [lit "old"].

Definition example_short_log : str := file_of ["xyz"; "abc"].

(** With batch size -1 the two lines are written as they come, and the
    line the destination held is gone. *)
Lemma batch_size_below_one_witness :
  (-1 ≤ 0)%Z
  ∧ read_and_process_in_batches example_decode example_short_log
      example_old_output (-1)
    = Some (match cleaned_line example_decode
                  <$> head (file_lines_binary example_short_log) with
            | Some (_ :: _) =>
                kept_lines example_decode (file_lines_binary example_short_log)
            | _ => example_old_output
                   ++ kept_lines example_decode
                        (file_lines_binary example_short_log)
            end).
Proof.
  split; [lia|].
  apply (batch_size_below_one example_decode example_short_log
           example_old_output (-1)).
  lia.
Defined.

(** The word counts of scenario 1. *)
Definition example_words_file : str := file_of ["dog cat"; "Dog dog"].

Lemma build_word_frequency_dict_keys_witness :
  build_word_frequency_dict example_words_file 2 !! lit "dog" = Some 3%Z
  ∧ (∃ line word,
       line ∈ take (Z.to_nat 2) (file_lines example_words_file)
       ∧ word ∈ extract_words (strip line)
       ∧ lit "dog" = lower word)
  ∧ lit "dog" ≠ []
  ∧ Forall (λ c, word_char c = true) (lit "dog")
  ∧ lower (lit "dog") = lit "dog".
Proof.
  split; [vm_compute; reflexivity|].
  apply (build_word_frequency_dict_keys example_words_file 2 (lit "dog") 3).
  vm_compute. reflexivity.
Defined.

(** A dictionary of two words, and a percentage shown without rounding
    digits. *)
Definition example_frequencies : gmap str Z :=
  <[lit "dog" := 3%Z]> (<[lit "cat" := 1%Z]> ∅).

Definition example_percentage (count total : Z) : str :=
  str_of_int (100 * count / total) ++ lit ".00".

Lemma example_percentage_line count total :
  Forall (λ c, c ≠ LF ∧ c ≠ CR) (example_percentage count total).
Proof.
  unfold example_percentage. apply Forall_app. split.
  - eapply Forall_impl; [apply str_of_int_id_chars|].
    intros ch Hch. by apply id_char_plain in Hch as (_ & ? & ?).
  - by repeat constructor.
Qed.

Lemma example_frequencies_keys w n :
  example_frequencies !! w = Some n →
  w ≠ [] ∧ Forall (λ c, word_char c = true) w.
Proof.
  unfold example_frequencies.
  intros [[<- _]|[_ [[<- _]|[_ H]]%lookup_insert_Some]]%lookup_insert_Some.
  - split; [done|by repeat constructor].
  - split; [done|by repeat constructor].
  - by rewrite lookup_empty in H.
Qed.

Lemma written_dictionary_loads_witness :
  (∀ count total, Forall (λ c, c ≠ LF ∧ c ≠ CR)
                    (example_percentage count total))
  ∧ (∀ w n, example_frequencies !! w = Some n →
            w ≠ [] ∧ Forall (λ c, word_char c = true) w)
  ∧ ∃ c,
      load_dictionary init (written_file example_percentage example_frequencies)
      = Some c
      ∧ (∀ t i, word_to_id c !! t = Some i
                ↔ (0 ≤ i)%Z
                  ∧ first_occurrences
                      (read_back <$> (sorted_words example_frequencies).*1)
                    !! Z.to_nat i = Some t)
      ∧ ((∀ w n, example_frequencies !! w = Some n → length w ≤ 30) →
         ∀ i w n, sorted_words example_frequencies !! i = Some (w, n) →
           word_to_id c !! w = Some (Z.of_nat i)
           ∧ id_to_word c !! Z.of_nat i = Some w).
Proof.
  split; [exact example_percentage_line|].
  split; [exact example_frequencies_keys|].
  exact (written_dictionary_loads example_percentage example_percentage_line
           example_frequencies example_frequencies_keys).
Defined.

(** A file of one line, whose pieces of three and four characters are
    scanned in the order of [elements]. *)
Definition example_line_file : str := file_of ["abcd"].

Definition example_entry : final :=
  {| substring := lit "abcd"; length_of := 4; frequency := 1 |}.

Lemma build_enhanced_dict_entry_witness :
  build_enhanced_dict elements example_line_file 10 !! lit "ab"
  = Some example_entry
  ∧ substring example_entry ∈ scanned elements example_line_file 10
  ∧ group_key (substring example_entry) = lit "ab"
  ∧ length_of example_entry = Z.of_nat (length (substring example_entry))
  ∧ frequency example_entry
    = Z.of_nat (occurrences (substring example_entry)
                  (scanned elements example_line_file 10))
  ∧ (1 ≤ frequency example_entry)%Z.
Proof.
  split; [vm_compute; reflexivity|].
  apply (build_enhanced_dict_entry elements example_line_file 10 (lit "ab")
           example_entry).
  vm_compute. reflexivity.
Defined.

Lemma elements_elem (X : gset str) s : s ∈ elements X → s ∈ X.
Proof. apply elem_of_elements. Qed.

Lemma build_enhanced_dict_bounds_witness :
  (∀ (X : gset str) s, s ∈ elements X → s ∈ X)
  ∧ build_enhanced_dict elements example_line_file 10 !! lit "bc"
    = Some {| substring := lit "bcd"; length_of := 3; frequency := 1 |}
  ∧ 3 ≤ length (lit "bcd") ≤ 50
  ∧ lit "bc" = take 2 (lit "bcd")
  ∧ ∃ line start end_,
      line ∈ file_lines example_line_file
      ∧ lit "bcd" = slice (strip line) start end_.
Proof.
  split; [exact elements_elem|].
  split; [vm_compute; reflexivity|].
  apply (build_enhanced_dict_bounds elements elements_elem example_line_file
           10 (lit "bc")
           {| substring := lit "bcd"; length_of := 3; frequency := 1 |}).
  vm_compute. reflexivity.
Defined.

(** The coder of scenario 2 is reachable by loading [example_dict], and
    the coder of scenario 3 by encoding [example_text] after that. *)
Lemma example_coder_reachable : reachable [lit "dog"; lit "cat"] example_coder.
Proof.
  apply (reach_load [] init example_dict example_coder reach_init).
  vm_compute. reflexivity.
Qed.

Lemma example_final_reachable : reachable example_log example_final.
Proof.
  apply (reach_encode [lit "dog"; lit "cat"] example_coder example_text
           example_final (file_of ["0 2"]) example_coder_reachable).
  vm_compute. reflexivity.
Qed.

Lemma save_load_mappings_witness :
  reachable example_log example_final
  ∧ load_mappings init (save_mappings example_final) = example_final.
Proof.
  split; [exact example_final_reachable|].
  exact (save_load_mappings example_log example_final init
           example_final_reachable).
Defined.

Lemma load_dictionary_again_witness :
  load_dictionary init example_dict = Some example_coder
  ∧ (∀ t i, word_to_id init !! t = Some i →
            word_to_id example_coder !! t = Some i)
  ∧ (∀ word, word ∈ dict_words example_dict →
             is_Some (word_to_id example_coder !! word))
  ∧ load_dictionary example_coder example_dict = Some example_coder.
Proof.
  split; [vm_compute; reflexivity|].
  apply (load_dictionary_again init example_coder example_dict).
  vm_compute. reflexivity.
Defined.

Lemma encode_decoded_again_witness :
  reachable [lit "dog"; lit "cat"] example_coder
  ∧ ∃ c1 encoded,
      encode example_coder example_text = Some (c1, encoded)
      ∧ encode c1 (decode (load_mappings init (save_mappings c1)) encoded)
        = Some (c1, encoded).
Proof.
  split; [exact example_coder_reachable|].
  exact (encode_decoded_again [lit "dog"; lit "cat"] example_coder
           example_text example_coder_reachable).
Defined.
End MoreScenarios.
